(** * Gomoku: the board engine and the minimax search engine

    A shallow embedding of [board.py] (class [Board]) and [ai.py]
    (class [AI]), and the properties of the specification proved over it.

    Modelling conventions.
    - Python integers are [Z].  The grid [self.board] (a square numpy
      array) is a [list (list Z)] indexed [board[y][x]], rows first.
    - Methods that mutate the board take the board and return the new
      one next to their result (explicit state passing).
    - Every [while] loop runs on a fuel counter and returns [None] when
      the fuel is exhausted; the totality lemmas show that the fuel the
      callers pass is always enough.  [None] therefore never stands for
      Python's [None]: the search results are [option move] inside the
      outer [option].
    - [float('-inf')] and [float('inf')] are the two extra points of
      the type [score].
    - A search depth is a number of plies, a [nat].
    - [random.choice] takes the number it draws as an argument.
    - Cell values are the integers the callers store (0 Empty, 1 black,
      2 white); the bound of the array's machine integers is not
      modelled. *)

From stdpp Require Import base tactics option list numbers strings sets sorting.
From Stdlib Require Import ZArith Lia.

Open Scope Z_scope.

(** ** board.py *)

(** [Board.__init__] stores [size] and the grid [board]. *)
Record Board : Type := mkBoard {
  size : Z;
  board : list (list Z)
}.

(** [self.win_length], set to 5 by the constructor and never reassigned. *)
Definition win_length : Z := 5.

(** [Board(size)]: [np.zeros((size, size), dtype=int)]. *)
Definition Board_init (n : Z) : Board :=
  mkBoard n (replicate (Z.to_nat n) (replicate (Z.to_nat n) 0)).

(** The shape invariant established by [__init__] and kept by every
    method: the grid is [size] rows of [size] cells. *)
Definition wf_board (b : Board) : Prop :=
  0 <= size b /\
  length (board b) = Z.to_nat (size b) /\
  Forall (fun row : list Z => length row = Z.to_nat (size b)) (board b).

(** [0 <= x < self.size and 0 <= y < self.size]. *)
Definition in_range (b : Board) (x y : Z) : bool :=
  (0 <=? x) && (x <? size b) && (0 <=? y) && (y <? size b).

(** The read [self.board[y][x]].  Every read in the source is guarded by
    a range test on [x] and [y], so neither numpy's negative indices nor
    its IndexError are ever reached; outside the grid the model reads 0. *)
Definition cell (b : Board) (x y : Z) : Z :=
  match board b !! Z.to_nat y with
  | Some row => default 0 (row !! Z.to_nat x)
  | None => 0
  end.

(** The write [self.board[y][x] = v] (in range at every call site). *)
Definition set_cell (b : Board) (x y v : Z) : Board :=
  mkBoard (size b) (alter (fun row => <[Z.to_nat x := v]> row) (Z.to_nat y) (board b)).

Definition is_valid_move (b : Board) (x y : Z) : bool :=
  if (x <? 0) || (x >=? size b) || (y <? 0) || (y >=? size b)
  then false
  else cell b x y =? 0.

Definition place_stone (b : Board) (x y player : Z) : bool * Board :=
  if is_valid_move b x y then (true, set_cell b x y player) else (false, b).

(** The [while] loop of [count_direction]; state [(count, nx, ny)]. *)
Fixpoint count_direction_loop (fuel : nat) (b : Board)
    (dx dy player count nx ny : Z) : option Z :=
  match fuel with
  | O => None
  | S fuel' =>
      if in_range b nx ny && (cell b nx ny =? player)
      then count_direction_loop fuel' b dx dy player (count + 1) (nx + dx) (ny + dy)
      else Some count
  end.

(** Fuel for a scan along a line of the board: a line has at most
    [size] cells. *)
Definition line_fuel (b : Board) : nat := S (Z.to_nat (size b)).

Definition count_direction (b : Board) (x y dx dy player : Z) : option Z :=
  count_direction_loop (line_fuel b) b dx dy player 0 (x + dx) (y + dy).

(** The four axes of [check_win] and [evaluate_position]. *)
Definition directions : list (Z * Z) := [(1, 0); (0, 1); (1, 1); (1, -1)].

(** The [for dx, dy in directions] loop of [check_win]. *)
Fixpoint check_win_loop (b : Board) (x y player : Z) (dirs : list (Z * Z))
    : option bool :=
  match dirs with
  | [] => Some false
  | (dx, dy) :: rest =>
      f ← count_direction b x y dx dy player;
      g ← count_direction b x y (- dx) (- dy) player;
      let count := 1 + f + g in
      if count >=? win_length then Some true
      else check_win_loop b x y player rest
  end.

Definition check_win (b : Board) (x y player : Z) : option bool :=
  check_win_loop b x y player directions.

(** Python's [range(n)]. *)
Definition range (n : Z) : list Z := seqZ 0 n.

(** [get_valid_moves]: the two nested [for] loops, rows outermost. *)
Definition get_valid_moves (b : Board) : list (Z * Z) :=
  y ← range (size b);
  x ← range (size b);
  if is_valid_move b x y then [(x, y)] else [].

(** [np.all(self.board != 0)]. *)
Definition is_full (b : Board) : bool :=
  forallb (forallb (fun c => negb (c =? 0))) (board b).

(** [reset]. *)
Definition reset (b : Board) : Board := Board_init (size b).

(** ** ai.py *)

(** The attributes of an [AI] object.  [__init__] sets [player] to 2 and
    [opponent] to 1; callers may reassign them (an AI playing black). *)
Module AI.
Record t : Type := mk {
  depth : Z;
  difficulty : string;
  player : Z;
  opponent : Z
}.
End AI.

(** [AI(depth=2, difficulty='Normal')]. *)
Definition AI_init (depth : Z) (difficulty : string) : AI.t :=
  AI.mk depth difficulty 2 1.

(** A board position [(x, y)]. *)
Definition move : Type := Z * Z.

(** Scores: integers, together with [float('-inf')] and [float('inf')]. *)
Inductive score : Type :=
  | NegInf : score
  | Num : Z -> score
  | PosInf : score.

(** [a < b] and [a <= b] on scores, as Python compares an [int] with an
    infinite [float]. *)
Definition slt (a b : score) : bool :=
  match a, b with
  | NegInf, NegInf => false
  | NegInf, _ => true
  | Num _, NegInf => false
  | Num x, Num y => x <? y
  | Num _, PosInf => true
  | PosInf, _ => false
  end.

Definition sle (a b : score) : bool := negb (slt b a).

(** Python's [max(a, b)] and [min(a, b)]: the first argument wins ties. *)
Definition smax (a b : score) : score := if slt a b then b else a.
Definition smin (a b : score) : score := if slt b a then b else a.

Definition calculate_line_score (count blocked : Z) : Z :=
  if count >=? 5 then 100000
  else if blocked =? 2 then 0
  else
    let base_score := 10 ^ (count - 1) in
    if blocked =? 1 then base_score / 2 else base_score.

(** One of the two [while] loops of [evaluate_position]; state
    [(count, blocked, nx, ny)], step [(sx, sy)]. *)
Fixpoint scan_loop (fuel : nat) (b : Board) (sx sy player : Z)
    (count blocked nx ny : Z) : option (Z * Z) :=
  match fuel with
  | O => None
  | S fuel' =>
      if in_range b nx ny then
        if cell b nx ny =? player
        then scan_loop fuel' b sx sy player (count + 1) blocked (nx + sx) (ny + sy)
        else if negb (cell b nx ny =? 0) then Some (count, blocked + 1)
        else Some (count, blocked)
      else Some (count, blocked)
  end.

(** A [while] loop of [evaluate_position] run to its exit. *)
Definition scan (b : Board) (sx sy player count blocked nx ny : Z) : option (Z * Z) :=
  scan_loop (line_fuel b) b sx sy player count blocked nx ny.

(** The [for dx, dy in directions] loop of [evaluate_position].  The
    second scan starts at [(x - dx, y - dy)] and steps by [nx -= dx]. *)
Fixpoint evaluate_position_loop (b : Board) (x y player : Z)
    (dirs : list (Z * Z)) (total_score : Z) : option Z :=
  match dirs with
  | [] => Some total_score
  | (dx, dy) :: rest =>
      '(count, blocked) ← scan b dx dy player 1 0 (x + dx) (y + dy);
      '(count, blocked) ← scan b (- dx) (- dy) player count blocked (x - dx) (y - dy);
      let score := calculate_line_score count blocked in
      evaluate_position_loop b x y player rest (total_score + score)
  end.

Definition evaluate_position (b : Board) (x y player : Z) : option Z :=
  evaluate_position_loop b x y player directions 0.

(** The cells visited by [for y in range(size): for x in range(size)]. *)
Definition cells (b : Board) : list (Z * Z) :=
  y ← range (size b);
  x ← range (size b);
  [(x, y)].

Fixpoint evaluate_board_loop (ai : AI.t) (b : Board) (cs : list (Z * Z))
    (score : Z) : option Z :=
  match cs with
  | [] => Some score
  | (x, y) :: rest =>
      if negb (cell b x y =? 0) then
        let player := cell b x y in
        position_score ← evaluate_position b x y player;
        if player =? AI.player ai
        then evaluate_board_loop ai b rest (score + position_score)
        else evaluate_board_loop ai b rest (score - position_score)
      else evaluate_board_loop ai b rest score
  end.

Definition evaluate_board (ai : AI.t) (b : Board) : option Z :=
  evaluate_board_loop ai b (cells b) 0.

Fixpoint is_game_over_loop (b : Board) (cs : list (Z * Z)) : option bool :=
  match cs with
  | [] => Some false
  | (x, y) :: rest =>
      if negb (cell b x y =? 0) then
        w ← check_win b x y (cell b x y);
        if w : bool then Some true else is_game_over_loop b rest
      else is_game_over_loop b rest
  end.

Definition is_game_over (b : Board) : option bool :=
  if is_full b then Some true else is_game_over_loop b (cells b).

(** The undo step of the search, [board.board[y][x] = 0]: a direct
    write of Empty into the grid, not a call of [place_stone]. *)
Definition clear_cell (b : Board) (x y : Z) : Board := set_cell b x y 0.

(** The maximizing [for] loop of [minimax]; [rec alpha beta b] is the
    recursive call [self.minimax(board, depth - 1, False, alpha, beta)]. *)
Fixpoint max_loop (ai : AI.t) (rec : score -> score -> Board -> option (score * Board))
    (valid_moves : list move) (max_score alpha beta : score) (b : Board)
    : option (score * Board) :=
  match valid_moves with
  | [] => Some (max_score, b)
  | (x, y) :: rest =>
      let '(_, b) := place_stone b x y (AI.player ai) in
      '(score, b) ← rec alpha beta b;
      let b := clear_cell b x y in
      let max_score := smax max_score score in
      let alpha := smax alpha score in
      if sle beta alpha then Some (max_score, b)
      else max_loop ai rec rest max_score alpha beta b
  end.

(** The minimizing [for] loop of [minimax]. *)
Fixpoint min_loop (ai : AI.t) (rec : score -> score -> Board -> option (score * Board))
    (valid_moves : list move) (min_score alpha beta : score) (b : Board)
    : option (score * Board) :=
  match valid_moves with
  | [] => Some (min_score, b)
  | (x, y) :: rest =>
      let '(_, b) := place_stone b x y (AI.opponent ai) in
      '(score, b) ← rec alpha beta b;
      let b := clear_cell b x y in
      let min_score := smin min_score score in
      let beta := smin beta score in
      if sle beta alpha then Some (min_score, b)
      else min_loop ai rec rest min_score alpha beta b
  end.

(** [minimax(board, depth, is_maximizing, alpha, beta)], by recursion on
    [depth], a number of plies (non-negative). *)
Fixpoint minimax (ai : AI.t) (depth : nat) (is_maximizing : bool)
    (alpha beta : score) (b : Board) : option (score * Board) :=
  match depth with
  | O => v ← evaluate_board ai b; Some (Num v, b)
  | S depth' =>
      over ← is_game_over b;
      if over : bool then v ← evaluate_board ai b; Some (Num v, b)
      else
        let valid_moves := get_valid_moves b in
        if is_maximizing
        then max_loop ai (minimax ai depth' false) valid_moves NegInf alpha beta b
        else min_loop ai (minimax ai depth' true) valid_moves PosInf alpha beta b
  end.

(** The [for move in valid_moves] loop of [_minimax_move]; [depth'] is
    [depth - 1]. *)
Fixpoint minimax_move_loop (ai : AI.t) (depth' : nat) (valid_moves : list move)
    (best_score : score) (best_move : option move) (b : Board)
    : option (option move * Board) :=
  match valid_moves with
  | [] => Some (best_move, b)
  | (x, y) :: rest =>
      let '(_, b) := place_stone b x y (AI.player ai) in
      '(score, b) ← minimax ai depth' false NegInf PosInf b;
      let b := clear_cell b x y in
      if slt best_score score
      then minimax_move_loop ai depth' rest score (Some (x, y)) b
      else minimax_move_loop ai depth' rest best_score best_move b
  end.

(** [_minimax_move(board, depth)].  [get_best_move] passes the depths 1,
    3 and 2; with [depth = 0] the source would search with negative
    depths, which the model leaves out. *)
Definition _minimax_move (ai : AI.t) (b : Board) (depth : nat)
    : option (option move * Board) :=
  match depth with
  | O => None
  | S depth' =>
      let valid_moves := get_valid_moves b in
      match valid_moves with
      | [] => Some (None, b)
      | _ => minimax_move_loop ai depth' valid_moves NegInf None b
      end
  end.

(** The two probing loops of the Easy tier: place a stone of [who],
    test [check_win], write Empty back. *)
Fixpoint easy_loop (b : Board) (who : Z) (valid_moves : list move)
    : option (option move * Board) :=
  match valid_moves with
  | [] => Some (None, b)
  | (x, y) :: rest =>
      let '(_, b) := place_stone b x y who in
      w ← check_win b x y who;
      if w : bool then
        let b := clear_cell b x y in Some (Some (x, y), b)
      else
        let b := clear_cell b x y in easy_loop b who rest
  end.

(** [random.choice(seq)] returns [seq[i]] for a random index [i] below
    [len(seq)]; [rnd] is the number drawn. *)
Definition random_choice (rnd : nat) (l : list move) : option move :=
  l !! (rnd mod length l)%nat.

(** [get_best_move(board)]; [rnd] is the random draw of the Easy tier. *)
Definition get_best_move (ai : AI.t) (b : Board) (rnd : nat)
    : option (option move * Board) :=
  let valid_moves := get_valid_moves b in
  match valid_moves with
  | [] => Some (None, b)
  | _ =>
      if bool_decide (AI.difficulty ai = "Easy") then
        '(r, b) ← easy_loop b (AI.player ai) valid_moves;
        match r with
        | Some m => Some (Some m, b)
        | None =>
            '(r, b) ← easy_loop b (AI.opponent ai) valid_moves;
            match r with
            | Some m => Some (Some m, b)
            | None => Some (random_choice rnd valid_moves, b)
            end
        end
      else if bool_decide (AI.difficulty ai = "Normal") then _minimax_move ai b 1
      else if bool_decide (AI.difficulty ai = "Hard") then _minimax_move ai b 3
      else _minimax_move ai b 2
  end.

(** [get_random_move]. *)
Definition get_random_move (b : Board) (rnd : nat) : option move :=
  match get_valid_moves b with
  | [] => None
  | valid_moves => random_choice rnd valid_moves
  end.

(** ** Exhaustive minimax

    The reference search of the alpha-beta equivalence property: the
    same recursion over the same moves, with the same speculative
    placement and undo, but no window and no cutoff. *)

Fixpoint max_loop_exhaustive (ai : AI.t) (rec : Board -> option (score * Board))
    (valid_moves : list move) (max_score : score) (b : Board)
    : option (score * Board) :=
  match valid_moves with
  | [] => Some (max_score, b)
  | (x, y) :: rest =>
      let '(_, b) := place_stone b x y (AI.player ai) in
      '(score, b) ← rec b;
      let b := clear_cell b x y in
      max_loop_exhaustive ai rec rest (smax max_score score) b
  end.

Fixpoint min_loop_exhaustive (ai : AI.t) (rec : Board -> option (score * Board))
    (valid_moves : list move) (min_score : score) (b : Board)
    : option (score * Board) :=
  match valid_moves with
  | [] => Some (min_score, b)
  | (x, y) :: rest =>
      let '(_, b) := place_stone b x y (AI.opponent ai) in
      '(score, b) ← rec b;
      let b := clear_cell b x y in
      min_loop_exhaustive ai rec rest (smin min_score score) b
  end.

Fixpoint minimax_exhaustive (ai : AI.t) (depth : nat) (is_maximizing : bool)
    (b : Board) : option (score * Board) :=
  match depth with
  | O => v ← evaluate_board ai b; Some (Num v, b)
  | S depth' =>
      over ← is_game_over b;
      if over : bool then v ← evaluate_board ai b; Some (Num v, b)
      else
        let valid_moves := get_valid_moves b in
        if is_maximizing
        then max_loop_exhaustive ai (minimax_exhaustive ai depth' false) valid_moves NegInf b
        else min_loop_exhaustive ai (minimax_exhaustive ai depth' true) valid_moves PosInf b
  end.

Fixpoint minimax_move_loop_exhaustive (ai : AI.t) (depth' : nat)
    (valid_moves : list move) (best_score : score) (best_move : option move)
    (b : Board) : option (option move * Board) :=
  match valid_moves with
  | [] => Some (best_move, b)
  | (x, y) :: rest =>
      let '(_, b) := place_stone b x y (AI.player ai) in
      '(score, b) ← minimax_exhaustive ai depth' false b;
      let b := clear_cell b x y in
      if slt best_score score
      then minimax_move_loop_exhaustive ai depth' rest score (Some (x, y)) b
      else minimax_move_loop_exhaustive ai depth' rest best_score best_move b
  end.

Definition _minimax_move_exhaustive (ai : AI.t) (b : Board) (depth : nat)
    : option (option move * Board) :=
  match depth with
  | O => None
  | S depth' =>
      let valid_moves := get_valid_moves b in
      match valid_moves with
      | [] => Some (None, b)
      | _ => minimax_move_loop_exhaustive ai depth' valid_moves NegInf None b
      end
  end.

(** ** Predicates used in the statements *)

(** The cell [(x, y)] is on the board and holds [player]'s value. *)
Definition holds (b : Board) (player x y : Z) : Prop :=
  in_range b x y = true /\ cell b x y = player.

(** Five consecutive cells of the line through [(x, y)] with direction
    [(dx, dy)], [(x, y)] among them, all hold [player]: the contiguous
    run through [(x, y)] has length at least 5. *)
Definition five_through (b : Board) (player x y dx dy : Z) : Prop :=
  exists a, 0 <= a <= 4 /\
    forall k, - a <= k <= 4 - a -> holds b player (x + k * dx) (y + k * dy).

(** Steps a scan started at [(nx, ny)] inside the board can still take
    along [(dx, dy)] before it leaves the board. *)
Definition steps_left (b : Board) (dx dy nx ny : Z) : Z :=
  if 0 <? dx then size b - nx
  else if dx <? 0 then nx + 1
  else if 0 <? dy then size b - ny
  else ny + 1.

(** Placing a stone of [who] at the move completes a win: the probe of
    the Easy tier, [place_stone] followed by [check_win]. *)
Definition wins (b : Board) (who : Z) (m : move) : Prop :=
  check_win (place_stone b m.1 m.2 who).2 m.1 m.2 who = Some true.

(** [m] is the first element of [l] that satisfies [P]. *)
Definition first_such {A} (P : A -> Prop) (l : list A) (m : A) : Prop :=
  exists l1 l2, l = l1 ++ m :: l2 /\ P m /\ Forall (fun m' => ~ P m') l1.

(** [m] is the first element of [l] whose score is maximal: everything
    before it scores strictly less, nothing after it scores more. *)
Definition first_max {A} (sc : A -> score) (l : list A) (m : A) : Prop :=
  exists l1 l2, l = l1 ++ m :: l2 /\
    Forall (fun m' => slt (sc m') (sc m) = true) l1 /\
    Forall (fun m' => sle (sc m') (sc m) = true) l2.

(** The score [_minimax_move] computes for a candidate move: the stone
    is placed and [minimax] runs with the full window, [depth'] plies
    deep, minimizing. *)
Definition move_score (ai : AI.t) (depth' : nat) (b : Board) (m : move) : score :=
  match minimax ai depth' false NegInf PosInf (place_stone b m.1 m.2 (AI.player ai)).2 with
  | Some (s, _) => s
  | None => NegInf
  end.

(** The depth [get_best_move] hands to [_minimax_move]: 1 for Normal,
    3 for Hard, 2 for every other tier name. *)
Definition tier_depth (difficulty : string) : nat :=
  if bool_decide (difficulty = "Normal") then 1%nat
  else if bool_decide (difficulty = "Hard") then 3%nat
  else 2%nat.

(** Row-major order on moves: by row [y], then by column [x]. *)
Definition row_major (m1 m2 : move) : Prop :=
  m1.2 < m2.2 \/ (m1.2 = m2.2 /\ m1.1 < m2.1).

(** What a search with window [(alpha, beta)] that returns [r] tells
    about the exact minimax value [v]: at or below [alpha] the result is
    an upper bound, at or above [beta] a lower bound, strictly inside
    the window it is exact. *)
Definition ab_sound (alpha beta v r : score) : Prop :=
  (sle r alpha = true -> sle v r = true) /\
  (sle beta r = true -> sle r v = true) /\
  (slt alpha r = true -> slt r beta = true -> v = r).

(** ** Boards used in the examples *)

(** Stones of [player] placed one after the other with [place_stone]. *)
Definition place_all (b : Board) (player : Z) (ms : list move) : Board :=
  foldl (fun b m => (place_stone b m.1 m.2 player).2) b ms.

(** Black on [(0,7)], [(1,7)], [(2,7)], [(3,7)] of an empty 15 x 15
    board: four in a row, [(4,7)] still Empty. *)
Definition board_four : Board :=
  place_all (Board_init 15) 1 [(0, 7); (1, 7); (2, 7); (3, 7)].

(** The same row with the fifth stone on [(4,7)]. *)
Definition board_five : Board := place_all board_four 1 [(4, 7)].

(** An empty 3 x 3 board, and one with a black stone in the centre. *)
Definition board_small : Board := Board_init 3.
Definition board_centre : Board := place_all board_small 1 [(1, 1)].

(** ** Invariants of the search loops *)

(** The recursive call [rec] returns an integer and restores the board,
    on every board reached from [b] by one speculative stone of [p]. *)
Definition rec_returns (rec : score -> score -> Board -> option (score * Board))
    (b : Board) (p : Z) : Prop :=
  forall alpha beta x y, is_valid_move b x y = true ->
    exists v, rec alpha beta (set_cell b x y p) = Some (Num v, set_cell b x y p).

(** The exhaustive recursive call [recx] returns and restores the
    board, on every board reached from [b] by one speculative stone of
    [p]. *)
Definition recx_returns (recx : Board -> option (score * Board))
    (b : Board) (p : Z) : Prop :=
  forall x y, is_valid_move b x y = true ->
    exists v, recx (set_cell b x y p) = Some (v, set_cell b x y p).

(** On every board reached from [b] by one speculative stone of [p],
    and for every open window, the pruned call and the exhaustive call
    both return and restore the board, and the pruned result is sound
    for the exhaustive value. *)
Definition rec_refines (rec : score -> score -> Board -> option (score * Board))
    (recx : Board -> option (score * Board)) (b : Board) (p : Z) : Prop :=
  forall alpha beta x y, is_valid_move b x y = true -> slt alpha beta = true ->
    exists r v,
      rec alpha beta (set_cell b x y p) = Some (r, set_cell b x y p) /\
      recx (set_cell b x y p) = Some (v, set_cell b x y p) /\
      ab_sound alpha beta v r.

(** State of the loop of [_minimax_move] after the moves [seen]: no move
    yet, or the first best move of [seen] with its score. *)
Definition best_so_far (ai : AI.t) (depth' : nat) (b : Board)
    (seen : list move) (best_score : score) (best_move : option move) : Prop :=
  (seen = [] /\ best_move = None /\ best_score = NegInf) \/
  (exists m, best_move = Some m /\ best_score = move_score ai depth' b m /\
             first_max (move_score ai depth' b) seen m).

(** One more blocked end: 1 when the cell is on the board and not
    Empty, 0 when it is Empty or off the board. *)
Definition end_blocked (b : Board) (x y : Z) : Z :=
  if in_range b x y && negb (cell b x y =? 0) then 1 else 0.

(** The line score of the axis [(dx, dy)] through [(x, y)]: the run of
    [player] counted by [count_direction] both ways, with [(x, y)], and
    the number of its two ends that stop on an occupied cell. *)
Definition line_score (b : Board) (x y player dx dy : Z) : Z :=
  match count_direction b x y dx dy player,
        count_direction b x y (- dx) (- dy) player with
  | Some f, Some g =>
      calculate_line_score (1 + f + g)
        (end_blocked b (x + (f + 1) * dx) (y + (f + 1) * dy)
         + end_blocked b (x - (g + 1) * dx) (y - (g + 1) * dy))
  | _, _ => 0
  end.

(** Some stone of the board lies in five consecutive cells of one of
    the four axes that all hold its value. *)
Definition has_five (b : Board) : Prop :=
  exists x y dx dy,
    in_range b x y = true /\ cell b x y <> 0 /\
    (dx, dy) ∈ directions /\ five_through b (cell b x y) x y dx dy.

(** ** game.py

    The game state of class [Game] that the rules read and write; the
    window, the renderer, the clock and the buttons are left out. *)
Module Game.
Record t : Type := mk {
  board : Board;
  game_mode : string;
  ai_difficulty : string;
  ai_player : option Z;
  ai : AI.t;
  game_over : bool;
  winner : option Z;
  current_player : Z
}.
End Game.

(** The state set up by [Game.__init__]. *)
Definition Game_init : Game.t :=
  Game.mk (Board_init 15) "2 Player" "Normal" (Some 2) (AI_init 2 "Normal")
          false None 1.

(** [reset_game]. *)
Definition reset_game (g : Game.t) : Game.t :=
  Game.mk (Board_init 15) (Game.game_mode g) (Game.ai_difficulty g)
          (Game.ai_player g) (Game.ai g) false None 1.

(** [set_mode(mode, difficulty)]; [difficulty] is [None] or a string,
    and an empty string is as false as [None]. *)
Definition set_mode (g : Game.t) (mode : string) (difficulty : option string)
    : Game.t :=
  let ai_difficulty :=
    match difficulty with
    | Some d => if bool_decide (d = "") then Game.ai_difficulty g else d
    | None => Game.ai_difficulty g
    end in
  if bool_decide (mode = "AI Mode") then
    let ai :=
      if bool_decide (ai_difficulty = "Easy") then AI_init 1 "Easy"
      else if bool_decide (ai_difficulty = "Normal") then AI_init 1 "Normal"
      else if bool_decide (ai_difficulty = "Hard") then AI_init 3 "Hard"
      else Game.ai g in
    Game.mk (Game.board g) mode ai_difficulty (Some 2) ai
            (Game.game_over g) (Game.winner g) (Game.current_player g)
  else
    Game.mk (Game.board g) mode ai_difficulty None (Game.ai g)
            (Game.game_over g) (Game.winner g) (Game.current_player g).

(** [make_ai_move]; [rnd] is the random draw of the Easy tier.  A move
    is a pair, which Python takes as true. *)
Definition make_ai_move (g : Game.t) (rnd : nat) : option Game.t :=
  '(ai_move, b) ← get_best_move (Game.ai g) (Game.board g) rnd;
  match ai_move with
  | Some (x, y) =>
      let '(_, b) := place_stone b x y (Game.current_player g) in
      w ← check_win b x y (Game.current_player g);
      if w : bool then
        Some (Game.mk b (Game.game_mode g) (Game.ai_difficulty g) (Game.ai_player g)
                (Game.ai g) true (Some (Game.current_player g))
                (Game.current_player g))
      else
        Some (Game.mk b (Game.game_mode g) (Game.ai_difficulty g) (Game.ai_player g)
                (Game.ai g) (Game.game_over g) (Game.winner g)
                (3 - Game.current_player g))
  | None =>
      Some (Game.mk b (Game.game_mode g) (Game.ai_difficulty g) (Game.ai_player g)
              (Game.ai g) (Game.game_over g) (Game.winner g)
              (Game.current_player g))
  end.

(** The last part of [handle_mouse_click], reached on the game screen
    when no button was hit: the click on the board.  [pos] is what
    [screen_to_board] returned, board coordinates or [(None, None)]. *)
Definition board_click (g : Game.t) (pos : option (Z * Z)) (rnd : nat)
    : option Game.t :=
  match pos with
  | Some (board_x, board_y) =>
      if negb (Game.game_over g) then
        if is_valid_move (Game.board g) board_x board_y then
          let '(_, b) := place_stone (Game.board g) board_x board_y
                           (Game.current_player g) in
          w ← check_win b board_x board_y (Game.current_player g);
          if w : bool then
            Some (Game.mk b (Game.game_mode g) (Game.ai_difficulty g)
                    (Game.ai_player g) (Game.ai g) true
                    (Some (Game.current_player g)) (Game.current_player g))
          else
            let g := Game.mk b (Game.game_mode g) (Game.ai_difficulty g)
                       (Game.ai_player g) (Game.ai g) (Game.game_over g)
                       (Game.winner g) (3 - Game.current_player g) in
            if bool_decide (Game.game_mode g = "AI Mode")
               && bool_decide (Game.ai_player g = Some (Game.current_player g))
            then make_ai_move g rnd
            else Some g
        else Some g
      else Some g
  | None => Some g
  end.

(** What the rules keep true of a game: the board is well shaped, the
    player to move is black or white, and the game is flagged over
    exactly when five in a row stand on the board. *)
Definition game_inv (g : Game.t) : Prop :=
  wf_board (Game.board g) /\
  (Game.current_player g = 1 \/ Game.current_player g = 2) /\
  (Game.game_over g = true <-> has_five (Game.board g)) /\
  (Game.game_over g = true <-> Game.winner g <> None).

(** ** Properties of the grid *)

Lemma in_range_spec b x y :
  in_range b x y = true <-> (0 <= x < size b /\ 0 <= y < size b).
Proof. unfold in_range. rewrite !andb_true_iff. lia. Qed.

Lemma is_valid_move_spec b x y :
  is_valid_move b x y = true <-> (in_range b x y = true /\ cell b x y = 0).
Proof.
  rewrite in_range_spec. unfold is_valid_move.
  destruct ((x <? 0) || (x >=? size b) || (y <? 0) || (y >=? size b)) eqn:E.
  - rewrite !orb_true_iff in E. split; [discriminate | lia].
  - rewrite !orb_false_iff in E. rewrite Z.eqb_eq. lia.
Qed.

Lemma size_set_cell b x y v : size (set_cell b x y v) = size b.
Proof. reflexivity. Qed.

Lemma in_range_set_cell b x y v x' y' :
  in_range (set_cell b x y v) x' y' = in_range b x' y'.
Proof. reflexivity. Qed.

Lemma wf_set_cell b x y v : wf_board b -> wf_board (set_cell b x y v).
Proof.
  intros (Hs & Hl & Hr). unfold wf_board, set_cell; simpl.
  split; [done |]. split.
  - by rewrite length_alter.
  - apply Forall_alter; [done |]. intros row Hrow. by rewrite length_insert.
Qed.

Lemma wf_Board_init n : 0 <= n -> wf_board (Board_init n).
Proof.
  intros Hn. unfold wf_board, Board_init; simpl.
  split; [done |]. split.
  - by rewrite length_replicate.
  - apply Forall_replicate. by rewrite length_replicate.
Qed.

(** In a well-shaped board every in-range coordinate names a grid cell. *)
Lemma wf_lookup b x y :
  wf_board b -> in_range b x y = true ->
  exists row, board b !! Z.to_nat y = Some row /\
              row !! Z.to_nat x = Some (cell b x y).
Proof.
  intros (Hs & Hl & Hr) [Hx Hy]%in_range_spec.
  destruct (lookup_lt_is_Some_2 (board b) (Z.to_nat y)) as [row Hrow]; [lia |].
  exists row. split; [done |].
  pose proof (Forall_lookup_1 _ _ _ _ Hr Hrow) as Hlen. simpl in Hlen.
  destruct (lookup_lt_is_Some_2 row (Z.to_nat x)) as [c Hc]; [lia |].
  unfold cell. by rewrite Hrow, Hc.
Qed.

Lemma cell_set_cell_eq b x y v :
  wf_board b -> in_range b x y = true -> cell (set_cell b x y v) x y = v.
Proof.
  intros Hwf Hin. destruct (wf_lookup b x y Hwf Hin) as (row & Hrow & Hc).
  unfold cell, set_cell; simpl.
  rewrite list_lookup_alter_eq, Hrow; simpl.
  rewrite list_lookup_insert_eq; [done |]. by eapply lookup_lt_Some.
Qed.

Lemma cell_set_cell_ne b x y v x' y' :
  0 <= x -> 0 <= y -> 0 <= x' -> 0 <= y' -> (x', y') <> (x, y) ->
  cell (set_cell b x y v) x' y' = cell b x' y'.
Proof.
  intros Hx Hy Hx' Hy' Hne. unfold cell, set_cell; simpl.
  destruct (decide (y' = y)) as [-> | Hyy].
  - rewrite list_lookup_alter_eq.
    destruct (board b !! Z.to_nat y) as [row |]; simpl; [| done].
    rewrite list_lookup_insert_ne; [done |].
    intros E. apply Hne. f_equal. lia.
  - rewrite list_lookup_alter_ne; [done | lia].
Qed.

(** Writing back the value a cell held undoes a write to that cell. *)
Lemma set_cell_restore b x y v :
  wf_board b -> in_range b x y = true ->
  set_cell (set_cell b x y v) x y (cell b x y) = b.
Proof.
  intros Hwf Hin. destruct (wf_lookup b x y Hwf Hin) as (row & Hrow & Hc).
  destruct b as [n g]. unfold set_cell; simpl in *. f_equal.
  rewrite list_alter_alter_eq.
  apply list_eq. intros i.
  destruct (decide (i = Z.to_nat y)) as [-> | Hi].
  - rewrite list_lookup_alter_eq, Hrow; simpl. f_equal.
    rewrite list_insert_insert_eq. by apply list_insert_id.
  - by rewrite list_lookup_alter_ne.
Qed.

Lemma place_stone_valid b x y p :
  is_valid_move b x y = true -> place_stone b x y p = (true, set_cell b x y p).
Proof. intros H. unfold place_stone. by rewrite H. Qed.

(** Placing a stone on a legal cell and clearing the cell again gives
    back the board: the undo discipline of the search. *)
Lemma place_clear b x y p :
  wf_board b -> is_valid_move b x y = true ->
  clear_cell (place_stone b x y p).2 x y = b.
Proof.
  intros Hwf Hv. rewrite place_stone_valid by done. simpl.
  apply is_valid_move_spec in Hv as [Hin Hc].
  unfold clear_cell. rewrite <- Hc at 1. by apply set_cell_restore.
Qed.

(** ** The line scans terminate *)

Lemma steps_left_pos b dx dy nx ny :
  in_range b nx ny = true -> 1 <= steps_left b dx dy nx ny <= size b.
Proof.
  intros [Hx Hy]%in_range_spec. unfold steps_left.
  repeat case_match; lia.
Qed.

Lemma steps_left_step b dx dy nx ny :
  (dx <> 0 \/ dy <> 0) ->
  in_range b nx ny = true -> in_range b (nx + dx) (ny + dy) = true ->
  steps_left b dx dy (nx + dx) (ny + dy) < steps_left b dx dy nx ny.
Proof.
  intros Hd [Hx Hy]%in_range_spec [Hx' Hy']%in_range_spec. unfold steps_left.
  repeat case_match; lia.
Qed.

Lemma count_direction_loop_total b dx dy player :
  (dx <> 0 \/ dy <> 0) ->
  forall fuel count nx ny,
    (0 < fuel)%nat ->
    (in_range b nx ny = true -> steps_left b dx dy nx ny < Z.of_nat fuel) ->
    exists r, count_direction_loop fuel b dx dy player count nx ny = Some r.
Proof.
  intros Hd. induction fuel as [| fuel IH]; intros count nx ny Hpos Hm; [lia |].
  simpl. destruct (in_range b nx ny) eqn:Hin; simpl; [| by eexists].
  destruct (cell b nx ny =? player); [| by eexists].
  specialize (Hm eq_refl). pose proof (steps_left_pos b dx dy nx ny Hin).
  apply IH; [lia |]. intros Hin'.
  pose proof (steps_left_step b dx dy nx ny Hd Hin Hin'). lia.
Qed.

Lemma count_direction_total b x y dx dy player :
  (dx <> 0 \/ dy <> 0) ->
  exists r, count_direction b x y dx dy player = Some r.
Proof.
  intros Hd. apply count_direction_loop_total; [done | unfold line_fuel; lia |].
  intros Hin. pose proof (steps_left_pos b dx dy _ _ Hin).
  unfold line_fuel. lia.
Qed.

Lemma scan_loop_total b sx sy player :
  (sx <> 0 \/ sy <> 0) ->
  forall fuel count blocked nx ny,
    (0 < fuel)%nat ->
    (in_range b nx ny = true -> steps_left b sx sy nx ny < Z.of_nat fuel) ->
    exists r, scan_loop fuel b sx sy player count blocked nx ny = Some r.
Proof.
  intros Hd. induction fuel as [| fuel IH]; intros count blocked nx ny Hpos Hm; [lia |].
  simpl. destruct (in_range b nx ny) eqn:Hin; [| by eexists].
  destruct (cell b nx ny =? player).
  - specialize (Hm eq_refl). pose proof (steps_left_pos b sx sy nx ny Hin).
    apply IH; [lia |]. intros Hin'.
    pose proof (steps_left_step b sx sy nx ny Hd Hin Hin'). lia.
  - destruct (negb (cell b nx ny =? 0)); by eexists.
Qed.

Lemma scan_total b sx sy player count blocked nx ny :
  (sx <> 0 \/ sy <> 0) ->
  exists r, scan b sx sy player count blocked nx ny = Some r.
Proof.
  intros Hd. apply scan_loop_total; [done | unfold line_fuel; lia |].
  intros Hin. pose proof (steps_left_pos b sx sy _ _ Hin).
  unfold line_fuel. lia.
Qed.

(** Each of the four axes, and its opposite, moves. *)
Lemma directions_move dx dy :
  (dx, dy) ∈ directions -> (dx <> 0 \/ dy <> 0) /\ (- dx <> 0 \/ - dy <> 0).
Proof.
  unfold directions. rewrite !elem_of_cons, elem_of_nil.
  intros [E | [E | [E | [E | []]]]]; injection E as -> ->; lia.
Qed.

Lemma check_win_loop_total b x y player dirs :
  dirs ⊆ directions -> exists r, check_win_loop b x y player dirs = Some r.
Proof.
  induction dirs as [| [dx dy] rest IH]; intros Hsub; simpl; [by eexists |].
  destruct (directions_move dx dy) as [H1 H2]; [apply Hsub; left |].
  destruct (count_direction_total b x y dx dy player H1) as [f ->].
  destruct (count_direction_total b x y (- dx) (- dy) player H2) as [g ->].
  simpl. destruct (1 + f + g >=? win_length); [by eexists |].
  apply IH. intros d Hd. apply Hsub. by right.
Qed.

Lemma check_win_total b x y player : exists r, check_win b x y player = Some r.
Proof. by apply check_win_loop_total. Qed.

Lemma evaluate_position_loop_total b x y player dirs total :
  dirs ⊆ directions ->
  exists r, evaluate_position_loop b x y player dirs total = Some r.
Proof.
  revert total. induction dirs as [| [dx dy] rest IH]; intros total Hsub; simpl;
    [by eexists |].
  destruct (directions_move dx dy) as [H1 H2]; [apply Hsub; left |].
  destruct (scan_total b dx dy player 1 0 (x + dx) (y + dy) H1) as [[c1 k1] ->].
  simpl.
  destruct (scan_total b (- dx) (- dy) player c1 k1 (x - dx) (y - dy) H2) as [[c2 k2] ->].
  simpl. apply IH. intros d Hd. apply Hsub. by right.
Qed.

Lemma evaluate_position_total b x y player :
  exists r, evaluate_position b x y player = Some r.
Proof. by apply evaluate_position_loop_total. Qed.

Lemma evaluate_board_loop_total ai b cs score :
  exists r, evaluate_board_loop ai b cs score = Some r.
Proof.
  revert score. induction cs as [| [x y] rest IH]; intros score; simpl; [by eexists |].
  destruct (negb (cell b x y =? 0)); [| done].
  destruct (evaluate_position_total b x y (cell b x y)) as [ps ->]. simpl.
  destruct (cell b x y =? AI.player ai); done.
Qed.

Lemma evaluate_board_total ai b : exists r, evaluate_board ai b = Some r.
Proof. apply evaluate_board_loop_total. Qed.

Lemma is_game_over_loop_total b cs : exists r, is_game_over_loop b cs = Some r.
Proof.
  induction cs as [| [x y] rest IH]; simpl; [by eexists |].
  destruct (negb (cell b x y =? 0)); [| done].
  destruct (check_win_total b x y (cell b x y)) as [w ->]. simpl.
  destruct w; [by eexists | done].
Qed.

Lemma is_game_over_total b : exists r, is_game_over b = Some r.
Proof.
  unfold is_game_over. destruct (is_full b); [by eexists |].
  apply is_game_over_loop_total.
Qed.

(** ** What [count_direction] counts *)

Lemma holds_dec b player x y :
  in_range b x y && (cell b x y =? player) = true <-> holds b player x y.
Proof. unfold holds. rewrite andb_true_iff, Z.eqb_eq. tauto. Qed.

(** The loop stops at the first cell, [n] steps on, that is off the
    board or does not hold [player]; all cells before it do. *)
Lemma count_direction_loop_spec b dx dy player :
  forall fuel count nx ny r,
    count_direction_loop fuel b dx dy player count nx ny = Some r ->
    exists n, 0 <= n /\ r = count + n /\
      (forall k, 0 <= k < n -> holds b player (nx + k * dx) (ny + k * dy)) /\
      ~ holds b player (nx + n * dx) (ny + n * dy).
Proof.
  induction fuel as [| fuel IH]; intros count nx ny r Hr; [done |].
  simpl in Hr.
  destruct (in_range b nx ny && (cell b nx ny =? player)) eqn:Hc.
  - apply holds_dec in Hc.
    destruct (IH _ _ _ _ Hr) as (n & Hn & -> & Hall & Hstop).
    exists (n + 1). split; [lia |]. split; [lia |]. split.
    + intros k Hk. destruct (decide (k = 0)) as [-> | Hk0].
      * by rewrite !Z.mul_0_l, !Z.add_0_r.
      * specialize (Hall (k - 1) ltac:(lia)).
        by replace (nx + dx + (k - 1) * dx) with (nx + k * dx) in Hall by lia;
           replace (ny + dy + (k - 1) * dy) with (ny + k * dy) in Hall by lia.
    + by replace (nx + (n + 1) * dx) with (nx + dx + n * dx) by lia;
         replace (ny + (n + 1) * dy) with (ny + dy + n * dy) by lia.
  - injection Hr as <-. exists 0. split; [lia |]. split; [lia |]. split; [lia |].
    rewrite !Z.mul_0_l, !Z.add_0_r. rewrite <- holds_dec. by rewrite Hc.
Qed.

Lemma count_direction_spec b x y dx dy player r :
  count_direction b x y dx dy player = Some r ->
  0 <= r /\
  (forall k, 1 <= k <= r -> holds b player (x + k * dx) (y + k * dy)) /\
  ~ holds b player (x + (r + 1) * dx) (y + (r + 1) * dy).
Proof.
  intros Hr. apply count_direction_loop_spec in Hr as (n & Hn & -> & Hall & Hstop).
  rewrite Z.add_0_l. split; [done |]. split.
  - intros k Hk. specialize (Hall (k - 1) ltac:(lia)).
    by replace (x + dx + (k - 1) * dx) with (x + k * dx) in Hall by lia;
       replace (y + dy + (k - 1) * dy) with (y + k * dy) in Hall by lia.
  - by replace (x + (n + 1) * dx) with (x + dx + n * dx) by lia;
       replace (y + (n + 1) * dy) with (y + dy + n * dy) by lia.
Qed.

(** With the stone at [(x, y)] in place, the two counts of an axis add
    up to 5 or more exactly when five in a row pass through [(x, y)]. *)
Lemma axis_count_five b x y dx dy player f g :
  holds b player x y ->
  count_direction b x y dx dy player = Some f ->
  count_direction b x y (- dx) (- dy) player = Some g ->
  (1 + f + g >=? win_length) = true <-> five_through b player x y dx dy.
Proof.
  intros H0 Hf Hg.
  apply count_direction_spec in Hf as (Hf0 & Hfall & Hfstop).
  apply count_direction_spec in Hg as (Hg0 & Hgall & Hgstop).
  assert (Hcell : forall k, - g <= k <= f -> holds b player (x + k * dx) (y + k * dy)).
  { intros k Hk. destruct (Z.lt_trichotomy k 0) as [Hneg | [-> | Hpos]].
    - specialize (Hgall (- k) ltac:(lia)).
      by replace (x + - k * - dx) with (x + k * dx) in Hgall by lia;
         replace (y + - k * - dy) with (y + k * dy) in Hgall by lia.
    - by rewrite !Z.mul_0_l, !Z.add_0_r.
    - apply Hfall. lia. }
  unfold win_length. rewrite Z.geb_le. split.
  - intros Hsum. exists (Z.min g 4). split; [lia |].
    intros k Hk. apply Hcell. lia.
  - intros (a & Ha & Hrun).
    assert (4 - a <= f).
    { destruct (Z.le_gt_cases (4 - a) f) as [| Hlt]; [done |]. exfalso.
      apply Hfstop, Hrun. lia. }
    assert (a <= g).
    { destruct (Z.le_gt_cases a g) as [| Hlt]; [done |]. exfalso.
      apply Hgstop. specialize (Hrun (- (g + 1)) ltac:(lia)).
      by replace (x + - (g + 1) * dx) with (x + (g + 1) * - dx) in Hrun by lia;
         replace (y + - (g + 1) * dy) with (y + (g + 1) * - dy) in Hrun by lia. }
    lia.
Qed.

Lemma check_win_loop_spec b x y player dirs :
  holds b player x y -> dirs ⊆ directions ->
  check_win_loop b x y player dirs = Some true <->
  exists dx dy, (dx, dy) ∈ dirs /\ five_through b player x y dx dy.
Proof.
  intros H0. induction dirs as [| [dx dy] rest IH]; intros Hsub; simpl.
  - split; [done |]. intros (dx & dy & Hin & _). by apply elem_of_nil in Hin.
  - destruct (directions_move dx dy) as [H1 H2]; [apply Hsub; left |].
    destruct (count_direction_total b x y dx dy player H1) as [f Hf].
    destruct (count_direction_total b x y (- dx) (- dy) player H2) as [g Hg].
    rewrite Hf, Hg. simpl.
    pose proof (axis_count_five b x y dx dy player f g H0 Hf Hg) as Hax.
    destruct (1 + f + g >=? win_length) eqn:Hc.
    + split; [| done]. intros _. exists dx, dy. split; [left | by apply Hax].
    + rewrite IH by (intros d Hd; apply Hsub; by right). split.
      * intros (dx' & dy' & Hin & H5). exists dx', dy'. split; [by right | done].
      * intros (dx' & dy' & Hin & H5). apply elem_of_cons in Hin as [E | Hin].
        -- injection E as -> ->. apply Hax in H5. discriminate.
        -- by exists dx', dy'.
Qed.

(** ** The legal moves *)

Lemma elem_of_range n k : k ∈ range n <-> 0 <= k < n.
Proof. unfold range. rewrite elem_of_seqZ. lia. Qed.

Lemma elem_of_cells b x y : (x, y) ∈ cells b <-> in_range b x y = true.
Proof.
  unfold cells. rewrite in_range_spec, list_elem_of_bind. split.
  - intros (y' & Hx & Hy). apply list_elem_of_bind in Hx as (x' & Hx & Hx').
    apply list_elem_of_singleton in Hx. injection Hx as -> ->.
    apply elem_of_range in Hx', Hy. lia.
  - intros [Hx Hy]. exists y. split; [| by apply elem_of_range].
    apply list_elem_of_bind. exists x. split; [| by apply elem_of_range].
    by apply list_elem_of_singleton.
Qed.

Lemma elem_of_get_valid_moves b x y :
  (x, y) ∈ get_valid_moves b <-> is_valid_move b x y = true.
Proof.
  unfold get_valid_moves. rewrite list_elem_of_bind. split.
  - intros (y' & Hx & Hy). apply list_elem_of_bind in Hx as (x' & Hx & Hx').
    destruct (is_valid_move b x' y') eqn:Hv; [| by apply elem_of_nil in Hx].
    apply list_elem_of_singleton in Hx. by injection Hx as -> ->.
  - intros Hv. pose proof Hv as [[Hx Hy]%in_range_spec _]%is_valid_move_spec.
    exists y. split; [| by apply elem_of_range].
    apply list_elem_of_bind. exists x. split; [| by apply elem_of_range].
    rewrite Hv. by apply list_elem_of_singleton.
Qed.

Lemma get_valid_moves_valid b :
  Forall (fun m : move => is_valid_move b m.1 m.2 = true) (get_valid_moves b).
Proof. apply Forall_forall. intros [x y] Hm. by apply elem_of_get_valid_moves. Qed.

(** A board with no legal move has no Empty cell: it is full. *)
Lemma no_moves_is_full b :
  wf_board b -> get_valid_moves b = [] -> is_full b = true.
Proof.
  intros Hwf Hnil. destruct (is_full b) eqn:Hfull; [done |]. exfalso.
  unfold is_full in Hfull.
  apply not_true_iff_false in Hfull. apply Hfull.
  apply Is_true_true_1, forallb_True, Forall_lookup. intros i row Hrow.
  apply forallb_True, Forall_lookup. intros j c Hc.
  apply Is_true_true_2, negb_true_iff, Z.eqb_neq. intros ->.
  destruct Hwf as (Hs & Hl & Hr).
  pose proof (lookup_lt_Some _ _ _ Hrow) as Hi.
  pose proof (lookup_lt_Some _ _ _ Hc) as Hj.
  pose proof (Forall_lookup_1 _ _ _ _ Hr Hrow) as Hlen. simpl in Hlen.
  assert (Hv : is_valid_move b (Z.of_nat j) (Z.of_nat i) = true).
  { apply is_valid_move_spec. split; [apply in_range_spec; lia |].
    unfold cell. by rewrite !Nat2Z.id, Hrow, Hc. }
  apply elem_of_get_valid_moves in Hv. rewrite Hnil in Hv. by apply elem_of_nil in Hv.
Qed.

Lemma not_over_has_moves b :
  wf_board b -> is_game_over b = Some false -> get_valid_moves b <> [].
Proof.
  intros Hwf Hover Hnil. unfold is_game_over in Hover.
  by rewrite (no_moves_is_full b Hwf Hnil) in Hover.
Qed.

(** A full board has no legal move. *)
Lemma is_full_no_moves b :
  wf_board b -> is_full b = true -> get_valid_moves b = [].
Proof.
  intros Hwf Hfull. destruct (get_valid_moves b) as [| [x y] rest] eqn:Hm; [done |].
  exfalso. assert (Hv : is_valid_move b x y = true).
  { apply elem_of_get_valid_moves. rewrite Hm. left. }
  apply is_valid_move_spec in Hv as [Hin Hc].
  destruct (wf_lookup b x y Hwf Hin) as (row & Hrow & Hcell).
  unfold is_full in Hfull.
  apply Is_true_true_2 in Hfull. rewrite forallb_True, Forall_lookup in Hfull.
  specialize (Hfull _ _ Hrow). rewrite forallb_True, Forall_lookup in Hfull.
  specialize (Hfull _ _ Hcell). rewrite Hc in Hfull. done.
Qed.

(** ** The search returns, on the board it was given *)

Lemma speculative_place b x y p :
  is_valid_move b x y = true ->
  place_stone b x y p = (true, set_cell b x y p).
Proof. apply place_stone_valid. Qed.

Lemma speculative_undo b x y p :
  wf_board b -> is_valid_move b x y = true ->
  clear_cell (set_cell b x y p) x y = b.
Proof.
  intros Hwf Hv. pose proof (place_clear b x y p Hwf Hv) as H.
  by rewrite place_stone_valid in H.
Qed.

Section loops_return.
Context (ai : AI.t) (rec : score -> score -> Board -> option (score * Board)).
Context (b : Board) (Hwf : wf_board b).

Lemma max_loop_returns moves :
  rec_returns rec b (AI.player ai) ->
  Forall (fun m : move => is_valid_move b m.1 m.2 = true) moves ->
  forall max_score alpha beta,
    exists s, max_loop ai rec moves max_score alpha beta b = Some (s, b) /\
              (max_score <> PosInf -> moves <> [] \/ max_score <> NegInf ->
               exists v, s = Num v).
Proof.
  intros Hrec. induction moves as [| [x y] rest IH]; intros Hval max_score alpha beta.
  - simpl. eexists. split; [done |]. intros H1 [H2 | H2]; [done |].
    destruct max_score; by eauto.
  - apply Forall_cons in Hval as [Hv Hval]. simpl in Hv. simpl.
    rewrite speculative_place by done.
    destruct (Hrec alpha beta x y Hv) as [v ->]. simpl.
    rewrite speculative_undo by done.
    assert (Hnum : max_score <> PosInf -> exists w, smax max_score (Num v) = Num w).
    { intros Hm. destruct max_score; [| | done]; unfold smax; simpl; [by eauto |].
      case_match; by eauto. }
    destruct (sle beta (smax alpha (Num v))).
    + eexists. split; [done |]. intros Hm _. by apply Hnum.
    + destruct (IH Hval (smax max_score (Num v)) (smax alpha (Num v)) beta)
        as (s & -> & Hs).
      exists s. split; [done |]. intros Hm _.
      destruct (Hnum Hm) as [w Hw]. rewrite Hw in Hs.
      apply Hs; [done | by right].
Qed.

Lemma min_loop_returns moves :
  rec_returns rec b (AI.opponent ai) ->
  Forall (fun m : move => is_valid_move b m.1 m.2 = true) moves ->
  forall min_score alpha beta,
    exists s, min_loop ai rec moves min_score alpha beta b = Some (s, b) /\
              (min_score <> NegInf -> moves <> [] \/ min_score <> PosInf ->
               exists v, s = Num v).
Proof.
  intros Hrec. induction moves as [| [x y] rest IH]; intros Hval min_score alpha beta.
  - simpl. eexists. split; [done |]. intros H1 [H2 | H2]; [done |].
    destruct min_score; by eauto.
  - apply Forall_cons in Hval as [Hv Hval]. simpl in Hv. simpl.
    rewrite speculative_place by done.
    destruct (Hrec alpha beta x y Hv) as [v ->]. simpl.
    rewrite speculative_undo by done.
    assert (Hnum : min_score <> NegInf -> exists w, smin min_score (Num v) = Num w).
    { intros Hm. destruct min_score; [done | |]; unfold smin; simpl; [| by eauto].
      case_match; by eauto. }
    destruct (sle (smin beta (Num v)) alpha).
    + eexists. split; [done |]. intros Hm _. by apply Hnum.
    + destruct (IH Hval (smin min_score (Num v)) alpha (smin beta (Num v)))
        as (s & -> & Hs).
      exists s. split; [done |]. intros Hm _.
      destruct (Hnum Hm) as [w Hw]. rewrite Hw in Hs.
      apply Hs; [done | by right].
Qed.
End loops_return.

(** [minimax] returns an integer score and leaves the board as it was. *)
Lemma minimax_returns ai depth :
  forall is_maximizing alpha beta b,
    wf_board b ->
    exists v, minimax ai depth is_maximizing alpha beta b = Some (Num v, b).
Proof.
  induction depth as [| depth IH]; intros is_maximizing alpha beta b Hwf; simpl.
  - destruct (evaluate_board_total ai b) as [v ->]. by eexists.
  - destruct (is_game_over_total b) as [over Hover]. rewrite Hover. simpl.
    destruct over.
    + destruct (evaluate_board_total ai b) as [v ->]. by eexists.
    + pose proof (not_over_has_moves b Hwf Hover) as Hne.
      pose proof (get_valid_moves_valid b) as Hval.
      destruct is_maximizing.
      * destruct (max_loop_returns ai (minimax ai depth false) b Hwf
                    (get_valid_moves b)) with (max_score := NegInf)
          (alpha := alpha) (beta := beta) as (s & -> & Hs); [| done |].
        { intros a c x y Hv. apply IH. by apply wf_set_cell. }
        destruct Hs as [v ->]; [done | by left |]. by eexists.
      * destruct (min_loop_returns ai (minimax ai depth true) b Hwf
                    (get_valid_moves b)) with (min_score := PosInf)
          (alpha := alpha) (beta := beta) as (s & -> & Hs); [| done |].
        { intros a c x y Hv. apply IH. by apply wf_set_cell. }
        destruct Hs as [v ->]; [done | by left |]. by eexists.
Qed.

(** ** The order on scores *)

(** Case analysis on scores: split every score into its three forms
    and every integer comparison into its two outcomes. *)
Ltac score_cases :=
  unfold sle, smax, smin in *;
  repeat match goal with s : score |- _ => destruct s end;
  simpl in *;
  repeat match goal with
         | |- context [?x <? ?y] => destruct (Z.ltb_spec x y); simpl in *
         | H : context [?x <? ?y] |- _ => destruct (Z.ltb_spec x y); simpl in *
         end;
  try done; try (f_equal; lia); try lia.

Lemma slt_trans a b c : slt a b = true -> slt b c = true -> slt a c = true.
Proof. intros. score_cases. Qed.

Lemma sle_slt_trans a b c : sle a b = true -> slt b c = true -> slt a c = true.
Proof. intros. score_cases. Qed.

Lemma sle_trans a b c : sle a b = true -> sle b c = true -> sle a c = true.
Proof. intros. score_cases. Qed.

Lemma sle_refl a : sle a a = true.
Proof. score_cases. Qed.

Lemma slt_sle a b : slt a b = true -> sle a b = true.
Proof. intros. score_cases. Qed.

Lemma slt_false_sle a b : slt a b = false -> sle b a = true.
Proof. intros. score_cases. Qed.

(** ** The moves come in row-major order *)

Lemma StronglySorted_range n : StronglySorted Z.lt (range n).
Proof.
  unfold range. generalize 0 at 1. 
  induction (Z.to_nat n) as [| k IH] eqn:Hk in n |- *; intros m.
  - rewrite seqZ_nil by lia. constructor.
  - rewrite seqZ_cons by lia. apply StronglySorted_cons. split.
    + apply Forall_forall. intros z Hz. apply elem_of_seqZ in Hz. lia.
    + apply IH. lia.
Qed.

Lemma StronglySorted_bind {A B} (RA : relation A) (RB : relation B)
    (f : A -> list B) (l : list A) :
  StronglySorted RA l ->
  (forall a, a ∈ l -> StronglySorted RB (f a)) ->
  (forall a1 a2 b1 b2, RA a1 a2 -> b1 ∈ f a1 -> b2 ∈ f a2 -> RB b1 b2) ->
  StronglySorted RB (l ≫= f).
Proof.
  intros Hl Hf HR. induction Hl as [| a l Hl IH Ha]; [constructor |].
  rewrite bind_cons. apply StronglySorted_app_2.
  - intros b1 b2 Hb1 Hb2. apply list_elem_of_bind in Hb2 as (a2 & Hb2 & Ha2).
    rewrite Forall_forall in Ha. by eapply HR; [apply Ha | |].
  - apply Hf. left.
  - apply IH. intros a' Ha'. apply Hf. by right.
Qed.

Lemma get_valid_moves_sorted b : StronglySorted row_major (get_valid_moves b).
Proof.
  unfold get_valid_moves.
  apply (StronglySorted_bind Z.lt); [apply StronglySorted_range | |].
  - intros y _. apply (StronglySorted_bind Z.lt); [apply StronglySorted_range | |].
    + intros x _. destruct (is_valid_move b x y); repeat constructor.
    + intros x1 x2 m1 m2 Hlt H1 H2.
      destruct (is_valid_move b x1 y); [| by apply elem_of_nil in H1].
      destruct (is_valid_move b x2 y); [| by apply elem_of_nil in H2].
      apply list_elem_of_singleton in H1, H2. subst. right. simpl. lia.
  - intros y1 y2 m1 m2 Hlt H1 H2.
    apply list_elem_of_bind in H1 as (x1 & H1 & _).
    apply list_elem_of_bind in H2 as (x2 & H2 & _).
    destruct (is_valid_move b x1 y1); [| by apply elem_of_nil in H1].
    destruct (is_valid_move b x2 y2); [| by apply elem_of_nil in H2].
    apply list_elem_of_singleton in H1, H2. subst. left. simpl. lia.
Qed.

(** ** Move selection by minimax *)

Lemma move_score_eq ai depth' b x y :
  wf_board b -> is_valid_move b x y = true ->
  exists v,
    minimax ai depth' false NegInf PosInf (set_cell b x y (AI.player ai))
      = Some (Num v, set_cell b x y (AI.player ai)) /\
    move_score ai depth' b (x, y) = Num v.
Proof.
  intros Hwf Hv.
  destruct (minimax_returns ai depth' false NegInf PosInf
              (set_cell b x y (AI.player ai))) as [v Hm]; [by apply wf_set_cell |].
  exists v. split; [done |].
  unfold move_score. simpl. rewrite place_stone_valid by done. simpl. by rewrite Hm.
Qed.

Lemma first_max_elem_of {A} (sc : A -> score) l m : first_max sc l m -> m ∈ l.
Proof. intros (l1 & l2 & -> & _). apply elem_of_app. right. left. Qed.

Lemma first_such_elem_of {A} (P : A -> Prop) l m : first_such P l m -> m ∈ l.
Proof. intros (l1 & l2 & -> & _). apply elem_of_app. right. left. Qed.

Section minimax_move_loop.
Context (ai : AI.t) (depth' : nat) (b : Board) (Hwf : wf_board b).

Lemma best_so_far_better seen best_score best_move m :
  best_so_far ai depth' b seen best_score best_move ->
  slt best_score (move_score ai depth' b m) = true ->
  best_so_far ai depth' b (seen ++ [m]) (move_score ai depth' b m) (Some m).
Proof.
  intros Hinv Hlt. right. exists m. split; [done |]. split; [done |].
  exists seen, []. split; [done |]. split; [| constructor].
  destruct Hinv as [(-> & _) | (m0 & _ & -> & l1 & l2 & -> & H1 & H2)]; [constructor |].
  apply Forall_app. split; [| apply Forall_cons; split].
  - eapply Forall_impl; [exact H1 |]. intros m' Hm'. simpl in Hm'.
    exact (slt_trans _ _ _ Hm' Hlt).
  - done.
  - eapply Forall_impl; [exact H2 |]. intros m' Hm'. simpl in Hm'.
    exact (sle_slt_trans _ _ _ Hm' Hlt).
Qed.

Lemma best_so_far_kept seen best_score best_move m v :
  best_so_far ai depth' b seen best_score best_move ->
  move_score ai depth' b m = Num v ->
  slt best_score (Num v) = false ->
  best_so_far ai depth' b (seen ++ [m]) best_score best_move.
Proof.
  intros Hinv Hv Hnlt.
  destruct Hinv as [(_ & _ & ->) | (m0 & -> & -> & l1 & l2 & -> & H1 & H2)]; [done |].
  right. exists m0. split; [done |]. split; [done |].
  exists l1, (l2 ++ [m]). split; [by rewrite <- app_assoc |]. split; [done |].
  apply Forall_app. split; [done |]. apply Forall_cons. split; [| constructor].
  rewrite Hv. by apply slt_false_sle.
Qed.

Lemma minimax_move_loop_spec moves :
  Forall (fun m : move => is_valid_move b m.1 m.2 = true) moves ->
  forall seen best_score best_move,
    best_so_far ai depth' b seen best_score best_move ->
    exists r best_score',
      minimax_move_loop ai depth' moves best_score best_move b = Some (r, b) /\
      best_so_far ai depth' b (seen ++ moves) best_score' r.
Proof.
  induction moves as [| [x y] rest IH]; intros Hval seen best_score best_move Hinv.
  - simpl. rewrite app_nil_r. by eauto.
  - apply Forall_cons in Hval as [Hv Hval]. simpl in Hv. simpl.
    rewrite speculative_place by done.
    destruct (move_score_eq ai depth' b x y Hwf Hv) as (v & -> & Hsc). simpl.
    rewrite speculative_undo by done.
    rewrite (@cons_middle move (x, y) seen rest), (@app_assoc move).
    destruct (slt best_score (Num v)) eqn:Hlt.
    + apply IH; [done |]. rewrite <- Hsc.
      eapply best_so_far_better; [exact Hinv | by rewrite Hsc].
    + apply IH; [done |]. by eapply best_so_far_kept.
Qed.

(** [_minimax_move] returns the first best-scoring legal move and
    restores the board. *)
Lemma minimax_move_spec :
  get_valid_moves b <> [] ->
  exists m, _minimax_move ai b (S depth') = Some (Some m, b) /\
            first_max (move_score ai depth' b) (get_valid_moves b) m.
Proof.
  intros Hne. unfold _minimax_move.
  destruct (get_valid_moves b) as [| m0 rest] eqn:Hmoves; [done |].
  destruct (minimax_move_loop_spec (m0 :: rest)) with (seen := @nil move)
    (best_score := NegInf) (best_move := @None move) as (r & bs & Hr & Hinv).
  - rewrite <- Hmoves. apply get_valid_moves_valid.
  - by left.
  - rewrite Hr. destruct Hinv as [(? & _) | (m & -> & _ & Hmax)]; [done |].
    by exists m.
Qed.

Lemma minimax_move_no_moves depth :
  get_valid_moves b = [] -> (0 < depth)%nat ->
  _minimax_move ai b depth = Some (None, b).
Proof.
  intros Hnil Hd. destruct depth as [| d]; [lia |].
  unfold _minimax_move. by rewrite Hnil.
Qed.
End minimax_move_loop.

(** ** The Easy tier *)

Section easy.
Context (b : Board) (Hwf : wf_board b).

Lemma easy_loop_spec who moves :
  Forall (fun m : move => is_valid_move b m.1 m.2 = true) moves ->
  exists r, easy_loop b who moves = Some (r, b) /\
    ((r = None /\ Forall (fun m => ~ wins b who m) moves) \/
     (exists m, r = Some m /\ first_such (wins b who) moves m)).
Proof.
  induction moves as [| [x y] rest IH]; intros Hval.
  - simpl. eexists. split; [done |]. left. by split.
  - apply Forall_cons in Hval as [Hv Hval]. simpl in Hv. simpl.
    rewrite speculative_place by done.
    destruct (check_win_total (set_cell b x y who) x y who) as [w Hw].
    rewrite Hw. simpl. rewrite speculative_undo by done.
    assert (Hwins : wins b who (x, y) <-> w = true).
    { unfold wins. simpl. rewrite speculative_place by done. simpl.
      rewrite Hw. split; congruence. }
    destruct w.
    + eexists. split; [done |]. right. eexists. split; [done |].
      exists [], rest. split; [done |]. split; [by apply Hwins | constructor].
    + destruct (IH Hval) as (r & -> & Hr). exists r. split; [done |].
      assert (Hno : ~ wins b who (x, y)) by (rewrite Hwins; done).
      destruct Hr as [(-> & Hall) | (m & -> & l1 & l2 & -> & Hm & Hl1)].
      * left. split; [done |]. by apply Forall_cons.
      * right. exists m. split; [done |].
        exists ((x, y) :: l1), l2. split; [done |]. split; [done |].
        by apply Forall_cons.
Qed.

Lemma random_choice_elem_of rnd (l : list move) :
  l <> [] -> exists m, random_choice rnd l = Some m /\ m ∈ l.
Proof.
  intros Hne. unfold random_choice.
  destruct (lookup_lt_is_Some_2 l (rnd mod length l)%nat) as [m Hm].
  - apply Nat.mod_upper_bound. by destruct l.
  - exists m. split; [done |]. by eapply list_elem_of_lookup_2.
Qed.

Lemma get_best_move_easy ai rnd :
  AI.difficulty ai = "Easy" -> get_valid_moves b <> [] ->
  get_best_move ai b rnd =
    '(r, b1) ← easy_loop b (AI.player ai) (get_valid_moves b);
    match r with
    | Some m => Some (Some m, b1)
    | None =>
        '(r, b2) ← easy_loop b1 (AI.opponent ai) (get_valid_moves b);
        match r with
        | Some m => Some (Some m, b2)
        | None => Some (random_choice rnd (get_valid_moves b), b2)
        end
    end.
Proof.
  intros Heasy Hne. unfold get_best_move.
  destruct (get_valid_moves b); [done |].
  by rewrite bool_decide_eq_true_2.
Qed.

(** The Easy tier: the first winning move, else the first blocking
    move, else the random pick; the board is restored. *)
Lemma easy_tier_spec ai rnd :
  AI.difficulty ai = "Easy" -> get_valid_moves b <> [] ->
  exists m, get_best_move ai b rnd = Some (Some m, b) /\
    (first_such (wins b (AI.player ai)) (get_valid_moves b) m \/
     (Forall (fun m' => ~ wins b (AI.player ai) m') (get_valid_moves b) /\
      first_such (wins b (AI.opponent ai)) (get_valid_moves b) m) \/
     (Forall (fun m' => ~ wins b (AI.player ai) m') (get_valid_moves b) /\
      Forall (fun m' => ~ wins b (AI.opponent ai) m') (get_valid_moves b) /\
      random_choice rnd (get_valid_moves b) = Some m)).
Proof.
  intros Heasy Hne. rewrite get_best_move_easy by done.
  pose proof (get_valid_moves_valid b) as Hval.
  destruct (easy_loop_spec (AI.player ai) _ Hval) as (r1 & -> & H1).
  simpl. destruct H1 as [(-> & Hno1) | (m & -> & Hfirst)].
  - destruct (easy_loop_spec (AI.opponent ai) _ Hval) as (r2 & -> & H2).
    simpl. destruct H2 as [(-> & Hno2) | (m & -> & Hfirst)].
    + destruct (random_choice_elem_of rnd (get_valid_moves b)) as (m & Hm & _);
        [done |].
      exists m. rewrite Hm. split; [done |]. right. right. done.
    + exists m. split; [done |]. right. left. done.
  - exists m. split; [done |]. by left.
Qed.
End easy.

(** ** [get_best_move] on the minimax tiers *)

Lemma get_best_move_minimax ai b rnd :
  AI.difficulty ai <> "Easy" -> get_valid_moves b <> [] ->
  get_best_move ai b rnd = _minimax_move ai b (tier_depth (AI.difficulty ai)).
Proof.
  intros Hd Hne. unfold get_best_move, tier_depth.
  destruct (get_valid_moves b); [done |].
  rewrite bool_decide_eq_false_2 by done.
  repeat case_bool_decide; done.
Qed.

Lemma tier_depth_pos difficulty : exists d', tier_depth difficulty = S d'.
Proof. unfold tier_depth. repeat case_bool_decide; by eexists. Qed.

(** On a board with a legal move every tier returns a legal move and
    restores the board. *)
Lemma get_best_move_some ai b rnd :
  wf_board b -> get_valid_moves b <> [] ->
  exists m, get_best_move ai b rnd = Some (Some m, b) /\ m ∈ get_valid_moves b.
Proof.
  intros Hwf Hne. destruct (decide (AI.difficulty ai = "Easy")) as [He | He].
  - destruct (easy_tier_spec b Hwf ai rnd He Hne) as (m & Hm & Hcase).
    exists m. split; [done |].
    destruct Hcase as [H | [[_ H] | (_ & _ & H)]].
    + by eapply first_such_elem_of.
    + by eapply first_such_elem_of.
    + unfold random_choice in H. by eapply list_elem_of_lookup_2.
  - rewrite get_best_move_minimax by done.
    destruct (tier_depth_pos (AI.difficulty ai)) as [d' ->].
    destruct (minimax_move_spec ai d' b Hwf Hne) as (m & Hm & Hmax).
    exists m. split; [done |]. by eapply first_max_elem_of.
Qed.

Lemma get_best_move_none ai b rnd :
  get_valid_moves b = [] -> get_best_move ai b rnd = Some (None, b).
Proof. intros Hnil. unfold get_best_move. by rewrite Hnil. Qed.

(** ** Alpha-beta pruning against exhaustive search *)

Lemma slt_irrefl a : slt a a = true -> False.
Proof. destruct a; simpl; try done. rewrite Z.ltb_lt. lia. Qed.

Lemma slt_sle_trans a b c : slt a b = true -> sle b c = true -> slt a c = true.
Proof. intros. score_cases. Qed.

Lemma sle_antisym a b : sle a b = true -> sle b a = true -> a = b.
Proof. intros. score_cases. Qed.

Lemma sle_false_slt a b : sle a b = false -> slt b a = true.
Proof. unfold sle. by intros ->%negb_false_iff. Qed.

(** Saturate the order facts in the context by transitivity and close
    the goal on a strict cycle. *)
Ltac order_have H :=
  let T := type of H in
  lazymatch goal with
  | _ : T |- _ => fail
  | _ => pose proof H
  end.

Ltac order_saturate :=
  repeat match goal with
         | H : slt ?a ?a = true |- _ => exact (False_ind _ (slt_irrefl a H))
         | H1 : slt ?a ?b = true, H2 : slt ?b ?c = true |- _ =>
             order_have (slt_trans a b c H1 H2)
         | H1 : sle ?a ?b = true, H2 : slt ?b ?c = true |- _ =>
             order_have (sle_slt_trans a b c H1 H2)
         | H1 : slt ?a ?b = true, H2 : sle ?b ?c = true |- _ =>
             order_have (slt_sle_trans a b c H1 H2)
         | H1 : sle ?a ?b = true, H2 : sle ?b ?c = true |- _ =>
             order_have (sle_trans a b c H1 H2)
         end.

Ltac order_norm :=
  repeat match goal with
         | H : slt ?a ?b = false |- _ => apply slt_false_sle in H
         | H : sle ?a ?b = false |- _ => apply sle_false_slt in H
         | H : @eq score ?a ?b |- _ => first [subst a | subst b | injection H as H; subst]
         end.

Ltac order_goal :=
  lazymatch goal with
  | |- slt ?a ?b = true =>
      let E := fresh in destruct (slt a b) eqn:E; [reflexivity | exfalso]
  | |- sle ?a ?b = true =>
      let E := fresh in destruct (sle a b) eqn:E; [reflexivity | exfalso]
  | |- slt ?a ?b = false =>
      let E := fresh in destruct (slt a b) eqn:E; [exfalso | reflexivity]
  | |- sle ?a ?b = false =>
      let E := fresh in destruct (sle a b) eqn:E; [exfalso | reflexivity]
  | |- ?x = ?x => reflexivity
  | |- _ => exfalso
  end.

Ltac order_leaf :=
  try discriminate; order_norm;
  lazymatch goal with
  | |- @eq score ?a ?b => apply sle_antisym
  | |- _ => idtac
  end;
  order_goal; try discriminate; order_norm; order_saturate.

Ltac score_split :=
  match goal with
  | |- context [if slt ?a ?b then _ else _] => destruct (slt a b) eqn:?
  | H : context [if slt ?a ?b then _ else _] |- _ => destruct (slt a b) eqn:?
  | H : true = true -> _ |- _ => specialize (H eq_refl)
  | H : false = true -> _ |- _ => clear H
  | H : slt ?a ?b = true -> _ |- _ =>
      destruct (slt a b) eqn:?; [specialize (H eq_refl) | clear H]
  | H : sle ?a ?b = true -> _ |- _ =>
      destruct (sle a b) eqn:?; [specialize (H eq_refl) | clear H]
  | H : _ /\ _ |- _ => destruct H
  | |- _ /\ _ => split
  | |- _ -> _ => intro
  end.

Ltac score_order :=
  unfold ab_sound, smax, smin in *;
  repeat score_split;
  order_leaf.

Lemma smax_assoc a b c : smax (smax a b) c = smax a (smax b c).
Proof. score_order. Qed.

Lemma smin_assoc a b c : smin (smin a b) c = smin a (smin b c).
Proof. score_order. Qed.

Lemma smax_NegInf_r a : smax a NegInf = a.
Proof. by destruct a. Qed.

Lemma smin_PosInf_r a : smin a PosInf = a.
Proof. by destruct a. Qed.

Lemma ab_sound_exact alpha beta v : ab_sound alpha beta v v.
Proof. score_order. Qed.

(** With the full window the search result is the exact value. *)
Lemma ab_sound_root v r : ab_sound NegInf PosInf v r -> v = r.
Proof.
  intros (Hlo & Hhi & Hin). destruct r; simpl in *.
  - specialize (Hlo eq_refl). by destruct v.
  - by apply Hin.
  - specialize (Hhi eq_refl). by destruct v.
Qed.

(** The maximizing loop: the loop is done, is cut off, or goes on. *)
Lemma ab_max_done best alpha0 beta vb :
  slt (smax alpha0 best) beta = true -> sle vb best = true ->
  (slt alpha0 best = true -> vb = best) -> ab_sound alpha0 beta vb best.
Proof. score_order. Qed.

Lemma ab_max_cut best alpha0 beta vb s v V :
  slt (smax alpha0 best) beta = true -> sle vb best = true ->
  (slt alpha0 best = true -> vb = best) ->
  ab_sound (smax alpha0 best) beta v s ->
  sle beta (smax (smax alpha0 best) s) = true ->
  sle (smax vb v) V = true ->
  ab_sound alpha0 beta V (smax best s).
Proof. score_order. Qed.

Lemma ab_max_next best alpha0 beta vb s v :
  slt (smax alpha0 best) beta = true -> sle vb best = true ->
  (slt alpha0 best = true -> vb = best) ->
  ab_sound (smax alpha0 best) beta v s ->
  sle beta (smax (smax alpha0 best) s) = false ->
  slt (smax alpha0 (smax best s)) beta = true /\
  sle (smax vb v) (smax best s) = true /\
  (slt alpha0 (smax best s) = true -> smax vb v = smax best s).
Proof. score_order. Qed.

(** The minimizing loop, symmetrically. *)
Lemma ab_min_done best alpha beta0 vb :
  slt alpha (smin beta0 best) = true -> sle best vb = true ->
  (slt best beta0 = true -> vb = best) -> ab_sound alpha beta0 vb best.
Proof. score_order. Qed.

Lemma ab_min_cut best alpha beta0 vb s v V :
  slt alpha (smin beta0 best) = true -> sle best vb = true ->
  (slt best beta0 = true -> vb = best) ->
  ab_sound alpha (smin beta0 best) v s ->
  sle (smin (smin beta0 best) s) alpha = true ->
  sle V (smin vb v) = true ->
  ab_sound alpha beta0 V (smin best s).
Proof. score_order. Qed.

Lemma ab_min_next best alpha beta0 vb s v :
  slt alpha (smin beta0 best) = true -> sle best vb = true ->
  (slt best beta0 = true -> vb = best) ->
  ab_sound alpha (smin beta0 best) v s ->
  sle (smin (smin beta0 best) s) alpha = false ->
  slt alpha (smin beta0 (smin best s)) = true /\
  sle (smin best s) (smin vb v) = true /\
  (slt (smin best s) beta0 = true -> smin vb v = smin best s).
Proof. score_order. Qed.

Lemma sle_smax_l a b : sle a (smax a b) = true.
Proof. score_order. Qed.

Lemma sle_smin_l a b : sle (smin a b) a = true.
Proof. score_order. Qed.

Section loops_exhaustive.
Context (ai : AI.t) (recx : Board -> option (score * Board)).
Context (b : Board) (Hwf : wf_board b).

Lemma max_loop_exhaustive_returns moves :
  recx_returns recx b (AI.player ai) ->
  Forall (fun m : move => is_valid_move b m.1 m.2 = true) moves ->
  forall max_score,
    exists V, max_loop_exhaustive ai recx moves max_score b = Some (V, b) /\
              sle max_score V = true.
Proof.
  intros Hrec. induction moves as [| [x y] rest IH]; intros Hval max_score.
  - simpl. exists max_score. split; [done | apply sle_refl].
  - apply Forall_cons in Hval as [Hv Hval]. simpl in Hv. simpl.
    rewrite speculative_place by done.
    destruct (Hrec x y Hv) as [v ->]. simpl.
    rewrite speculative_undo by done.
    destruct (IH Hval (smax max_score v)) as (V & -> & HV).
    exists V. split; [done |].
    eapply sle_trans; [apply sle_smax_l | exact HV].
Qed.

Lemma min_loop_exhaustive_returns moves :
  recx_returns recx b (AI.opponent ai) ->
  Forall (fun m : move => is_valid_move b m.1 m.2 = true) moves ->
  forall min_score,
    exists V, min_loop_exhaustive ai recx moves min_score b = Some (V, b) /\
              sle V min_score = true.
Proof.
  intros Hrec. induction moves as [| [x y] rest IH]; intros Hval min_score.
  - simpl. exists min_score. split; [done | apply sle_refl].
  - apply Forall_cons in Hval as [Hv Hval]. simpl in Hv. simpl.
    rewrite speculative_place by done.
    destruct (Hrec x y Hv) as [v ->]. simpl.
    rewrite speculative_undo by done.
    destruct (IH Hval (smin min_score v)) as (V & -> & HV).
    exists V. split; [done |].
    eapply sle_trans; [exact HV | apply sle_smin_l].
Qed.
End loops_exhaustive.

Section loops_pruned.
Context (ai : AI.t) (rec : score -> score -> Board -> option (score * Board)).
Context (recx : Board -> option (score * Board)).
Context (b : Board) (Hwf : wf_board b).

Lemma rec_refines_returns p : rec_refines rec recx b p -> recx_returns recx b p.
Proof.
  intros Hrec x y Hv. destruct (Hrec NegInf PosInf x y Hv eq_refl) as (r & v & _ & Hx & _).
  by exists v.
Qed.

Lemma max_loop_ab moves :
  rec_refines rec recx b (AI.player ai) ->
  Forall (fun m : move => is_valid_move b m.1 m.2 = true) moves ->
  forall best vb alpha0 beta,
    slt (smax alpha0 best) beta = true -> sle vb best = true ->
    (slt alpha0 best = true -> vb = best) ->
    exists R V,
      max_loop ai rec moves best (smax alpha0 best) beta b = Some (R, b) /\
      max_loop_exhaustive ai recx moves vb b = Some (V, b) /\
      ab_sound alpha0 beta V R.
Proof.
  intros Hrec. induction moves as [| [x y] rest IH];
    intros Hval best vb alpha0 beta Hwin Hle Heq.
  - simpl. exists best, vb. split; [done |]. split; [done |]. by apply ab_max_done.
  - apply Forall_cons in Hval as [Hv Hval]. simpl in Hv. simpl.
    rewrite speculative_place by done.
    destruct (Hrec (smax alpha0 best) beta x y Hv Hwin) as (s & v & -> & -> & Hs).
    simpl. rewrite speculative_undo by done.
    destruct (sle beta (smax (smax alpha0 best) s)) eqn:Hcut.
    + destruct (max_loop_exhaustive_returns ai recx b Hwf rest
                  (rec_refines_returns _ Hrec) Hval (smax vb v)) as (V & -> & HV).
      exists (smax best s), V. split; [done |]. split; [done |].
      by eapply ab_max_cut.
    + destruct (ab_max_next best alpha0 beta vb s v Hwin Hle Heq Hs Hcut)
        as (Hwin' & Hle' & Heq').
      rewrite smax_assoc. by apply IH.
Qed.

Lemma min_loop_ab moves :
  rec_refines rec recx b (AI.opponent ai) ->
  Forall (fun m : move => is_valid_move b m.1 m.2 = true) moves ->
  forall best vb alpha beta0,
    slt alpha (smin beta0 best) = true -> sle best vb = true ->
    (slt best beta0 = true -> vb = best) ->
    exists R V,
      min_loop ai rec moves best alpha (smin beta0 best) b = Some (R, b) /\
      min_loop_exhaustive ai recx moves vb b = Some (V, b) /\
      ab_sound alpha beta0 V R.
Proof.
  intros Hrec. induction moves as [| [x y] rest IH];
    intros Hval best vb alpha beta0 Hwin Hle Heq.
  - simpl. exists best, vb. split; [done |]. split; [done |]. by apply ab_min_done.
  - apply Forall_cons in Hval as [Hv Hval]. simpl in Hv. simpl.
    rewrite speculative_place by done.
    destruct (Hrec alpha (smin beta0 best) x y Hv Hwin) as (s & v & -> & -> & Hs).
    simpl. rewrite speculative_undo by done.
    destruct (sle (smin (smin beta0 best) s) alpha) eqn:Hcut.
    + destruct (min_loop_exhaustive_returns ai recx b Hwf rest
                  (rec_refines_returns _ Hrec) Hval (smin vb v)) as (V & -> & HV).
      exists (smin best s), V. split; [done |]. split; [done |].
      by eapply ab_min_cut.
    + destruct (ab_min_next best alpha beta0 vb s v Hwin Hle Heq Hs Hcut)
        as (Hwin' & Hle' & Heq').
      rewrite smin_assoc. by apply IH.
Qed.
End loops_pruned.

(** Pruned and exhaustive minimax both return on the board they were
    given, and the pruned score is sound for the exhaustive one. *)
Lemma minimax_ab ai depth :
  forall is_maximizing alpha beta b,
    wf_board b -> slt alpha beta = true ->
    exists r v,
      minimax ai depth is_maximizing alpha beta b = Some (r, b) /\
      minimax_exhaustive ai depth is_maximizing b = Some (v, b) /\
      ab_sound alpha beta v r.
Proof.
  induction depth as [| depth IH]; intros is_maximizing alpha beta b Hwf Hwin; simpl.
  - destruct (evaluate_board_total ai b) as [e ->]. simpl.
    exists (Num e), (Num e). split; [done |]. split; [done |]. apply ab_sound_exact.
  - destruct (is_game_over_total b) as [over ->]. simpl. destruct over.
    + destruct (evaluate_board_total ai b) as [e ->]. simpl.
      exists (Num e), (Num e). split; [done |]. split; [done |]. apply ab_sound_exact.
    + pose proof (get_valid_moves_valid b) as Hval. destruct is_maximizing.
      * destruct (max_loop_ab ai (minimax ai depth false)
                    (minimax_exhaustive ai depth false) b Hwf (get_valid_moves b))
          with (best := NegInf) (vb := NegInf) (alpha0 := alpha) (beta := beta)
          as (R & V & HR & HV & Hs); try done.
        -- intros a c x y Hv Hac. apply IH; [by apply wf_set_cell | done].
        -- by rewrite smax_NegInf_r.
        -- rewrite smax_NegInf_r in HR. by exists R, V.
      * destruct (min_loop_ab ai (minimax ai depth true)
                    (minimax_exhaustive ai depth true) b Hwf (get_valid_moves b))
          with (best := PosInf) (vb := PosInf) (alpha := alpha) (beta0 := beta)
          as (R & V & HR & HV & Hs); try done.
        -- intros a c x y Hv Hac. apply IH; [by apply wf_set_cell | done].
        -- rewrite smin_PosInf_r in HR. by exists R, V.
Qed.

(** With the full window the two searches return the same score. *)
Lemma minimax_exhaustive_eq ai depth is_maximizing b :
  wf_board b ->
  minimax_exhaustive ai depth is_maximizing b
    = minimax ai depth is_maximizing NegInf PosInf b.
Proof.
  intros Hwf.
  destruct (minimax_ab ai depth is_maximizing NegInf PosInf b Hwf eq_refl)
    as (r & v & -> & -> & Hs).
  by rewrite (ab_sound_root v r Hs).
Qed.

Lemma minimax_move_loop_exhaustive_eq ai depth' b moves :
  wf_board b ->
  Forall (fun m : move => is_valid_move b m.1 m.2 = true) moves ->
  forall best_score best_move,
    minimax_move_loop_exhaustive ai depth' moves best_score best_move b
      = minimax_move_loop ai depth' moves best_score best_move b.
Proof.
  intros Hwf. induction moves as [| [x y] rest IH]; intros Hval best_score best_move;
    [done |].
  apply Forall_cons in Hval as [Hv Hval]. simpl in Hv. simpl.
  rewrite speculative_place by done.
  rewrite minimax_exhaustive_eq by (by apply wf_set_cell).
  destruct (minimax_returns ai depth' false NegInf PosInf
              (set_cell b x y (AI.player ai))) as [v ->]; [by apply wf_set_cell |].
  simpl. rewrite speculative_undo by done.
  destruct (slt best_score (Num v)); by apply IH.
Qed.

(** ** The properties of the specification *)

(** *** Board engine *)

(** C5.  [place_stone(x, y, player)] succeeds exactly on the legal
    moves, the in-range Empty cells: it then returns true and the new
    grid holds [player] at [(x, y)] and is unchanged at every other
    cell; on any other coordinates (negative, beyond the size, or an
    occupied cell) it returns false and the board is unchanged. *)
Theorem place_stone_spec (b : Board) (x y player : Z) :
  wf_board b ->
  (is_valid_move b x y = true <->
     (0 <= x < size b /\ 0 <= y < size b /\ cell b x y = 0)) /\
  (is_valid_move b x y = true ->
     exists b', place_stone b x y player = (true, b') /\
       wf_board b' /\ size b' = size b /\
       cell b' x y = player /\
       forall x' y', in_range b x' y' = true -> (x', y') <> (x, y) ->
                     cell b' x' y' = cell b x' y') /\
  (is_valid_move b x y = false -> place_stone b x y player = (false, b)).
Proof.
  intros Hwf. split; [| split].
  - rewrite is_valid_move_spec, in_range_spec. tauto.
  - intros Hv. exists (set_cell b x y player).
    pose proof Hv as [Hin Hc]%is_valid_move_spec.
    pose proof Hin as [Hx Hy]%in_range_spec.
    split; [by apply place_stone_valid |].
    split; [by apply wf_set_cell |]. split; [done |].
    split; [by apply cell_set_cell_eq |].
    intros x' y' [Hx' Hy']%in_range_spec Hne.
    apply cell_set_cell_ne; [lia .. | done].
  - intros Hv. unfold place_stone. by rewrite Hv.
Qed.

Lemma place_stone_spec_witness :
  wf_board board_four /\
  (is_valid_move board_four 4 7 = true ->
     exists b', place_stone board_four 4 7 1 = (true, b') /\
       wf_board b' /\ size b' = size board_four /\
       cell b' 4 7 = 1 /\
       forall x' y', in_range board_four x' y' = true -> (x', y') <> (4, 7) ->
                     cell b' x' y' = cell board_four x' y') /\
  (is_valid_move board_four 3 7 = false ->
     place_stone board_four 3 7 2 = (false, board_four)).
Proof.
  assert (Hwf : wf_board board_four).
  { split; [vm_compute; discriminate | split; [reflexivity | repeat constructor]]. }
  split; [exact Hwf |]. split.
  - apply (place_stone_spec board_four 4 7 1 Hwf).
  - apply (place_stone_spec board_four 3 7 2 Hwf).
Defined.

(** C2, as amended.  When the cell [(x, y)] holds [player]'s stone (the
    stone just placed, as at every call site), [check_win(x, y, player)]
    returns true exactly when, along the horizontal, the vertical or one
    of the two diagonals, five consecutive cells containing [(x, y)] all
    hold [player]: the contiguous run through [(x, y)], counted in both
    directions and including [(x, y)], has length at least 5. *)
Theorem check_win_five (b : Board) (x y player : Z) :
  in_range b x y = true -> cell b x y = player ->
  exists r, check_win b x y player = Some r /\
    (r = true <->
       (five_through b player x y 1 0 \/ five_through b player x y 0 1 \/
        five_through b player x y 1 1 \/ five_through b player x y 1 (-1))).
Proof.
  intros Hin Hc. destruct (check_win_total b x y player) as [r Hr].
  exists r. split; [done |].
  pose proof (check_win_loop_spec b x y player directions (conj Hin Hc)
                (fun d Hd => Hd)) as Hspec.
  change (check_win_loop b x y player directions) with (check_win b x y player)
    in Hspec.
  rewrite Hr in Hspec.
  assert (Hr' : r = true <-> Some r = Some true) by (split; congruence).
  rewrite Hr', Hspec. unfold directions. split.
  - intros (dx & dy & Hd & H5). rewrite !elem_of_cons, elem_of_nil in Hd.
    destruct Hd as [E | [E | [E | [E | []]]]]; injection E as -> ->; tauto.
  - intros [H5 | [H5 | [H5 | H5]]]; eexists _, _; (split; [| exact H5]);
      rewrite !elem_of_cons; tauto.
Qed.

Lemma check_win_five_witness :
  in_range board_five 4 7 = true /\ cell board_five 4 7 = 1 /\
  exists r, check_win board_five 4 7 1 = Some r /\
    (r = true <->
       (five_through board_five 1 4 7 1 0 \/ five_through board_five 1 4 7 0 1 \/
        five_through board_five 1 4 7 1 1 \/ five_through board_five 1 4 7 1 (-1))).
Proof.
  split; [reflexivity |]. split; [reflexivity |].
  apply (check_win_five board_five 4 7 1); reflexivity.
Defined.

(** C2, as stated, fails on a cell that does not hold [player]: with
    four black stones on [(0,7)] to [(3,7)] and [(4,7)] Empty,
    [check_win(4, 7, 1)] is true although no five black cells are
    contiguous (the board holds four black stones). *)
Lemma check_win_unplaced_counterexample :
  in_range board_four 4 7 = true /\
  check_win board_four 4 7 1 = Some true /\
  ~ (five_through board_four 1 4 7 1 0 \/ five_through board_four 1 4 7 0 1 \/
     five_through board_four 1 4 7 1 1 \/ five_through board_four 1 4 7 1 (-1)).
Proof.
  split; [reflexivity |]. split; [reflexivity |].
  assert (Hno : forall dx dy, ~ five_through board_four 1 4 7 dx dy).
  { intros dx dy (a & Ha & Hrun). destruct (Hrun 0 ltac:(lia)) as [_ Hc].
    rewrite !Z.mul_0_l, !Z.add_0_r in Hc. vm_compute in Hc. discriminate. }
  intros [H | [H | [H | H]]]; by eapply Hno.
Qed.

(** The win-detection examples of the specification. *)
Example check_win_horizontal : check_win board_five 4 7 1 = Some true.
Proof. reflexivity. Qed.

Example check_win_four_is_no_win : check_win board_four 3 7 1 = Some false.
Proof. reflexivity. Qed.



(** *** Static evaluation *)

(** C7.  For [count >= 1] and [blocked] in [{0, 1, 2}] the line score is
    100000 when [count >= 5]; otherwise 0 when [blocked = 2]; otherwise
    [10^(count-1)], halved by integer division when [blocked = 1] and
    unchanged when [blocked = 0]. *)
Theorem calculate_line_score_spec (count blocked : Z) :
  1 <= count -> 0 <= blocked <= 2 ->
  (5 <= count -> calculate_line_score count blocked = 100000) /\
  (count < 5 -> blocked = 2 -> calculate_line_score count blocked = 0) /\
  (count < 5 -> blocked = 1 ->
     calculate_line_score count blocked = 10 ^ (count - 1) `div` 2) /\
  (count < 5 -> blocked = 0 ->
     calculate_line_score count blocked = 10 ^ (count - 1)).
Proof.
  intros Hc Hb. unfold calculate_line_score.
  destruct (Z.geb_spec count 5) as [H5 | H5].
  - repeat split; intros; first [done | lia].
  - repeat split; intros; subst; first [lia | reflexivity].
Qed.

Lemma calculate_line_score_spec_witness :
  1 <= 3 /\ 0 <= 1 <= 2 /\
  (5 <= 3 -> calculate_line_score 3 1 = 100000) /\
  (3 < 5 -> 1 = 2 -> calculate_line_score 3 1 = 0) /\
  (3 < 5 -> 1 = 1 -> calculate_line_score 3 1 = 10 ^ (3 - 1) `div` 2) /\
  (3 < 5 -> 1 = 0 -> calculate_line_score 3 1 = 10 ^ (3 - 1)).
Proof.
  split; [lia |]. split; [lia |].
  apply (calculate_line_score_spec 3 1); lia.
Defined.

(** The scores of the open and the half-open lines of one to four
    stones, of a won line and of a dead line. *)
Example calculate_line_score_table :
  map (fun c => calculate_line_score c 0) [1; 2; 3; 4; 5; 6] = [1; 10; 100; 1000; 100000; 100000] /\
  map (fun c => calculate_line_score c 1) [1; 2; 3; 4; 5; 6] = [0; 5; 50; 500; 100000; 100000] /\
  map (fun c => calculate_line_score c 2) [1; 2; 3; 4; 5; 6] = [0; 0; 0; 0; 100000; 100000].
Proof. repeat split. Qed.

(** *** Search engine *)

(** C1.  On every board, [minimax] at every depth, with every window
    and for either side, the move-selection wrapper [_minimax_move],
    the probing loops of the Easy tier and [get_best_move] at every
    tier all return, and return with the grid they were given. *)
Theorem search_restores_board (b : Board) :
  wf_board b ->
  (forall ai depth is_maximizing alpha beta,
     exists s, minimax ai depth is_maximizing alpha beta b = Some (s, b)) /\
  (forall ai depth, (0 < depth)%nat ->
     exists r, _minimax_move ai b depth = Some (r, b)) /\
  (forall who, exists r, easy_loop b who (get_valid_moves b) = Some (r, b)) /\
  (forall ai rnd, exists r, get_best_move ai b rnd = Some (r, b)).
Proof.
  intros Hwf. split; [| split; [| split]].
  - intros ai depth is_maximizing alpha beta.
    destruct (minimax_returns ai depth is_maximizing alpha beta b Hwf) as [v Hv].
    by eexists.
  - intros ai depth Hd. destruct depth as [| depth']; [lia |].
    destruct (decide (get_valid_moves b = [])) as [Hnil | Hne].
    + rewrite minimax_move_no_moves by (done || lia). by eexists.
    + destruct (minimax_move_spec ai depth' b Hwf Hne) as (m & -> & _). by eexists.
  - intros who.
    destruct (easy_loop_spec b Hwf who _ (get_valid_moves_valid b)) as (r & -> & _).
    by eexists.
  - intros ai rnd. destruct (decide (get_valid_moves b = [])) as [Hnil | Hne].
    + rewrite get_best_move_none by done. by eexists.
    + destruct (get_best_move_some ai b rnd Hwf Hne) as (m & -> & _). by eexists.
Qed.

Lemma search_restores_board_witness :
  wf_board board_centre /\
  (exists s, minimax (AI_init 2 "Hard") 2 false NegInf PosInf board_centre
             = Some (s, board_centre)) /\
  (exists r, get_best_move (AI_init 2 "Hard") board_centre 0 = Some (r, board_centre)).
Proof.
  assert (Hwf : wf_board board_centre).
  { split; [vm_compute; discriminate | split; [reflexivity | repeat constructor]]. }
  split; [exact Hwf |].
  destruct (search_restores_board board_centre Hwf) as (Hmm & _ & _ & Hbest).
  split; [apply Hmm | apply Hbest].
Defined.

(** C3.  [get_best_move] returns, at every tier; it returns no move
    exactly when [get_valid_moves] is empty, that is when no cell of the
    board is Empty. *)
Theorem get_best_move_none_iff (ai : AI.t) (b : Board) (rnd : nat) :
  wf_board b ->
  exists r, get_best_move ai b rnd = Some (r, b) /\
    (r = None <-> get_valid_moves b = []) /\
    (get_valid_moves b = [] <->
       forall x y, in_range b x y = true -> cell b x y <> 0).
Proof.
  intros Hwf.
  assert (Hfull : get_valid_moves b = [] <->
                  forall x y, in_range b x y = true -> cell b x y <> 0).
  { split.
    - intros Hnil x y Hin Hc.
      assert (Hv : (x, y) ∈ get_valid_moves b).
      { apply elem_of_get_valid_moves, is_valid_move_spec. by split. }
      rewrite Hnil in Hv. by apply elem_of_nil in Hv.
    - intros Hall. destruct (get_valid_moves b) as [| [x y] rest] eqn:Hm; [done |].
      assert (Hv : is_valid_move b x y = true).
      { apply elem_of_get_valid_moves. rewrite Hm. left. }
      apply is_valid_move_spec in Hv as [Hin Hc]. by destruct (Hall x y Hin). }
  destruct (decide (get_valid_moves b = [])) as [Hnil | Hne].
  - exists None. rewrite get_best_move_none by done.
    split; [done |]. split; [by split | exact Hfull].
  - destruct (get_best_move_some ai b rnd Hwf Hne) as (m & -> & _).
    exists (Some m). split; [done |]. split; [by split | exact Hfull].
Qed.

Lemma get_best_move_none_iff_witness :
  wf_board board_centre /\
  exists r, get_best_move (AI_init 2 "Normal") board_centre 0 = Some (r, board_centre) /\
    (r = None <-> get_valid_moves board_centre = []) /\
    (get_valid_moves board_centre = [] <->
       forall x y, in_range board_centre x y = true -> cell board_centre x y <> 0).
Proof.
  assert (Hwf : wf_board board_centre).
  { split; [vm_compute; discriminate | split; [reflexivity | repeat constructor]]. }
  split; [exact Hwf |].
  apply (get_best_move_none_iff (AI_init 2 "Normal") board_centre 0 Hwf).
Defined.

(** A board with no Empty cell, at every tier: no move, no failure. *)
Example get_best_move_full_board :
  let b := mkBoard 2 [[1; 2]; [2; 1]] in
  map (fun d => get_best_move (AI_init 2 d) b 0) ["Easy"; "Normal"; "Hard"; "Other"]
  = [Some (None, b); Some (None, b); Some (None, b); Some (None, b)].
Proof. reflexivity. Qed.

(** C10.  Whenever [get_best_move] returns a move [(x, y)], that move
    is one of [get_valid_moves]: it is on the board and its cell is
    Empty. *)
Theorem get_best_move_valid (ai : AI.t) (b : Board) (rnd : nat) :
  wf_board b ->
  exists r, get_best_move ai b rnd = Some (r, b) /\
    forall x y, r = Some (x, y) ->
      (x, y) ∈ get_valid_moves b /\
      0 <= x < size b /\ 0 <= y < size b /\ cell b x y = 0.
Proof.
  intros Hwf. destruct (decide (get_valid_moves b = [])) as [Hnil | Hne].
  - exists None. rewrite get_best_move_none by done. by split.
  - destruct (get_best_move_some ai b rnd Hwf Hne) as (m & -> & Hm).
    exists (Some m). split; [done |]. intros x y [= ->]. split; [done |].
    apply elem_of_get_valid_moves, is_valid_move_spec in Hm as [Hin Hc].
    apply in_range_spec in Hin. tauto.
Qed.

Lemma get_best_move_valid_witness :
  wf_board board_four /\
  exists r, get_best_move (AI_init 1 "Easy") board_four 5 = Some (r, board_four) /\
    forall x y, r = Some (x, y) ->
      (x, y) ∈ get_valid_moves board_four /\
      0 <= x < size board_four /\ 0 <= y < size board_four /\
      cell board_four x y = 0.
Proof.
  assert (Hwf : wf_board board_four).
  { split; [vm_compute; discriminate | split; [reflexivity | repeat constructor]]. }
  split; [exact Hwf |].
  apply (get_best_move_valid (AI_init 1 "Easy") board_four 5 Hwf).
Defined.

(** C6.  On a board with a legal move the Easy tier returns, in this
    order of preference: the first legal move (in enumeration order)
    whose speculative placement of the engine's stone satisfies
    [check_win]; else the first legal move whose speculative placement
    of the opponent's stone satisfies [check_win]; else the legal move
    picked by the random draw.  No search score enters the choice, and
    the board is restored. *)
Theorem easy_tier_policy (ai : AI.t) (b : Board) (rnd : nat) :
  wf_board b -> AI.difficulty ai = "Easy" -> get_valid_moves b <> [] ->
  exists m, get_best_move ai b rnd = Some (Some m, b) /\
    m ∈ get_valid_moves b /\
    (first_such (wins b (AI.player ai)) (get_valid_moves b) m \/
     (Forall (fun m' => ~ wins b (AI.player ai) m') (get_valid_moves b) /\
      first_such (wins b (AI.opponent ai)) (get_valid_moves b) m) \/
     (Forall (fun m' => ~ wins b (AI.player ai) m') (get_valid_moves b) /\
      Forall (fun m' => ~ wins b (AI.opponent ai) m') (get_valid_moves b) /\
      random_choice rnd (get_valid_moves b) = Some m)).
Proof.
  intros Hwf Heasy Hne.
  destruct (easy_tier_spec b Hwf ai rnd Heasy Hne) as (m & Hm & Hcase).
  exists m. split; [done |]. split; [| done].
  destruct Hcase as [H | [[_ H] | (_ & _ & H)]].
  - by eapply first_such_elem_of.
  - by eapply first_such_elem_of.
  - unfold random_choice in H. by eapply list_elem_of_lookup_2.
Qed.

Lemma easy_tier_policy_witness :
  wf_board board_four /\ AI.difficulty (AI_init 1 "Easy") = "Easy" /\
  get_valid_moves board_four <> [] /\
  exists m, get_best_move (AI_init 1 "Easy") board_four 5 = Some (Some m, board_four) /\
    m ∈ get_valid_moves board_four /\
    (first_such (wins board_four 2) (get_valid_moves board_four) m \/
     (Forall (fun m' => ~ wins board_four 2 m') (get_valid_moves board_four) /\
      first_such (wins board_four 1) (get_valid_moves board_four) m) \/
     (Forall (fun m' => ~ wins board_four 2 m') (get_valid_moves board_four) /\
      Forall (fun m' => ~ wins board_four 1 m') (get_valid_moves board_four) /\
      random_choice 5 (get_valid_moves board_four) = Some m)).
Proof.
  assert (Hwf : wf_board board_four).
  { split; [vm_compute; discriminate | split; [reflexivity | repeat constructor]]. }
  assert (Hne : get_valid_moves board_four <> []) by (vm_compute; discriminate).
  split; [exact Hwf |]. split; [reflexivity |]. split; [exact Hne |].
  apply (easy_tier_policy (AI_init 1 "Easy") board_four 5 Hwf eq_refl Hne).
Defined.

(** The Easy-tier examples of the specification: with four black stones
    in a row and [(4,7)] open, white blocks at [(4,7)] and black wins
    there, whatever the random draw. *)
Example easy_tier_block :
  get_best_move (AI_init 1 "Easy") board_four 5 = Some (Some (4, 7), board_four).
Proof. vm_compute. reflexivity. Qed.

Example easy_tier_win :
  get_best_move (AI.mk 1 "Easy" 1 2) board_four 5 = Some (Some (4, 7), board_four).
Proof. vm_compute. reflexivity. Qed.

(** C8.  On the Normal, Hard and fallback tiers [get_best_move] does not
    depend on the random draw, and the move it returns is the first
    move, in the row-major order in which [get_valid_moves] lists the
    Empty cells, whose minimax score is maximal: every earlier move
    scores strictly less and no later move scores more. *)
Theorem minimax_tiers_first_best (ai : AI.t) (b : Board) :
  wf_board b -> AI.difficulty ai <> "Easy" -> get_valid_moves b <> [] ->
  StronglySorted row_major (get_valid_moves b) /\
  (forall x y, (x, y) ∈ get_valid_moves b <->
               (in_range b x y = true /\ cell b x y = 0)) /\
  exists m,
    (forall rnd, get_best_move ai b rnd = Some (Some m, b)) /\
    first_max (move_score ai (Nat.pred (tier_depth (AI.difficulty ai))) b)
      (get_valid_moves b) m.
Proof.
  intros Hwf Hd Hne. split; [apply get_valid_moves_sorted |]. split.
  - intros x y. by rewrite elem_of_get_valid_moves, is_valid_move_spec.
  - destruct (tier_depth_pos (AI.difficulty ai)) as [d' Hd'].
    destruct (minimax_move_spec ai d' b Hwf Hne) as (m & Hm & Hmax).
    exists m. split.
    + intros rnd. rewrite get_best_move_minimax by done. by rewrite Hd'.
    + by rewrite Hd'.
Qed.

Lemma minimax_tiers_first_best_witness :
  wf_board board_centre /\ AI.difficulty (AI_init 2 "Hard") <> "Easy" /\
  get_valid_moves board_centre <> [] /\
  StronglySorted row_major (get_valid_moves board_centre) /\
  (forall x y, (x, y) ∈ get_valid_moves board_centre <->
               (in_range board_centre x y = true /\ cell board_centre x y = 0)) /\
  exists m,
    (forall rnd, get_best_move (AI_init 2 "Hard") board_centre rnd
                 = Some (Some m, board_centre)) /\
    first_max (move_score (AI_init 2 "Hard") (Nat.pred (tier_depth "Hard")) board_centre)
      (get_valid_moves board_centre) m.
Proof.
  assert (Hwf : wf_board board_centre).
  { split; [vm_compute; discriminate | split; [reflexivity | repeat constructor]]. }
  assert (Hd : AI.difficulty (AI_init 2 "Hard") <> "Easy") by (simpl; discriminate).
  assert (Hne : get_valid_moves board_centre <> []) by (vm_compute; discriminate).
  split; [exact Hwf |]. split; [exact Hd |]. split; [exact Hne |].
  apply (minimax_tiers_first_best (AI_init 2 "Hard") board_centre Hwf Hd Hne).
Defined.

(** On the empty 3 x 3 board all nine moves score alike at depth 1; the
    first in row-major order, [(0, 0)], is returned. *)
Example normal_tier_tie_break :
  map (move_score (AI_init 2 "Normal") 0 board_small) (get_valid_moves board_small)
  = replicate 9 (Num 4) /\
  get_best_move (AI_init 2 "Normal") board_small 0 = Some (Some (0, 0), board_small).
Proof. split; vm_compute; reflexivity. Qed.

(** C4.  For every board and depth, move selection with alpha-beta
    pruning and move selection with exhaustive minimax both return, and
    return the same move; the pruned score of every position, searched
    with the full window, is the exhaustive score. *)
Theorem alpha_beta_same_move (ai : AI.t) (b : Board) (depth : nat) :
  wf_board b -> (0 < depth)%nat ->
  (exists r, _minimax_move ai b depth = Some (r, b) /\
             _minimax_move_exhaustive ai b depth = Some (r, b)) /\
  (forall d is_maximizing,
     exists v, minimax ai d is_maximizing NegInf PosInf b = Some (Num v, b) /\
               minimax_exhaustive ai d is_maximizing b = Some (Num v, b)).
Proof.
  intros Hwf Hd. split.
  - destruct depth as [| depth']; [lia |].
    assert (Heq : _minimax_move_exhaustive ai b (S depth') = _minimax_move ai b (S depth')).
    { unfold _minimax_move_exhaustive, _minimax_move.
      pose proof (get_valid_moves_valid b) as Hval.
      destruct (get_valid_moves b) as [| m0 rest]; [done |].
      by apply minimax_move_loop_exhaustive_eq. }
    rewrite Heq. destruct (decide (get_valid_moves b = [])) as [Hnil | Hne].
    + rewrite minimax_move_no_moves by (done || lia). by eexists.
    + destruct (minimax_move_spec ai depth' b Hwf Hne) as (m & -> & _). by eexists.
  - intros d is_maximizing. rewrite minimax_exhaustive_eq by done.
    destruct (minimax_returns ai d is_maximizing NegInf PosInf b Hwf) as [v Hv].
    by exists v.
Qed.

Lemma alpha_beta_same_move_witness :
  wf_board board_centre /\ (0 < 3)%nat /\
  (exists r, _minimax_move (AI_init 2 "Hard") board_centre 3 = Some (r, board_centre) /\
             _minimax_move_exhaustive (AI_init 2 "Hard") board_centre 3
             = Some (r, board_centre)) /\
  (forall d is_maximizing,
     exists v, minimax (AI_init 2 "Hard") d is_maximizing NegInf PosInf board_centre
               = Some (Num v, board_centre) /\
               minimax_exhaustive (AI_init 2 "Hard") d is_maximizing board_centre
               = Some (Num v, board_centre)).
Proof.
  assert (Hwf : wf_board board_centre).
  { split; [vm_compute; discriminate | split; [reflexivity | repeat constructor]]. }
  split; [exact Hwf |]. split; [lia |].
  apply (alpha_beta_same_move (AI_init 2 "Hard") board_centre 3 Hwf). lia.
Defined.

(** Both searches on the 3 x 3 board with a black centre, three plies. *)
Example alpha_beta_hard_tier :
  _minimax_move (AI_init 2 "Hard") board_centre 3 = Some (Some (0, 0), board_centre) /\
  _minimax_move_exhaustive (AI_init 2 "Hard") board_centre 3
  = Some (Some (0, 0), board_centre).
Proof. split; vm_compute; reflexivity. Qed.

(** ** Further properties of the board engine *)

(** X1.  Along a direction that moves, [count_direction] returns the
    length [n] of the run of [player]'s cells that starts next to
    [(x, y)]: the [n] cells after [(x, y)] are on the board and hold
    [player], the one after them is off the board or holds something
    else; [n] is at most [size], and less than [size] when [(x, y)] is
    on the board. *)
Theorem count_direction_run (b : Board) (x y dx dy player : Z) :
  dx <> 0 \/ dy <> 0 ->
  exists n, count_direction b x y dx dy player = Some n /\
    0 <= n <= Z.max 0 (size b) /\
    (in_range b x y = true -> n < size b) /\
    (forall k, 1 <= k <= n -> holds b player (x + k * dx) (y + k * dy)) /\
    ~ holds b player (x + (n + 1) * dx) (y + (n + 1) * dy).
Proof.
  intros Hd. destruct (count_direction_total b x y dx dy player Hd) as [n Hn].
  exists n. split; [done |].
  apply count_direction_spec in Hn as (Hn0 & Hall & Hstop).
  assert (Hr : forall k, 1 <= k <= n ->
                 0 <= x + k * dx < size b /\ 0 <= y + k * dy < size b).
  { intros k Hk. destruct (Hall k Hk) as [Hin _]. by apply in_range_spec. }
  split; [| split; [| by split]].
  - split; [done |]. destruct (Z.le_gt_cases n 1) as [Hle | Hgt].
    + destruct (decide (n = 1)) as [-> | Hn1]; [| lia].
      specialize (Hr 1 ltac:(lia)). lia.
    + pose proof (Hr 1 ltac:(lia)) as H1. pose proof (Hr n ltac:(lia)) as H2.
      destruct Hd as [Hd | Hd]; nia.
  - intros [Hx Hy]%in_range_spec.
    destruct (decide (n = 0)) as [-> | Hn1]; [lia |].
    pose proof (Hr n ltac:(lia)) as H2. destruct Hd as [Hd | Hd]; nia.
Qed.

Lemma count_direction_run_witness :
  (1 <> 0 \/ 0 <> 0) /\
  exists n, count_direction board_four (-1) 7 1 0 1 = Some n /\
    0 <= n <= Z.max 0 (size board_four) /\
    (in_range board_four (-1) 7 = true -> n < size board_four) /\
    (forall k, 1 <= k <= n -> holds board_four 1 (-1 + k * 1) (7 + k * 0)) /\
    ~ holds board_four 1 (-1 + (n + 1) * 1) (7 + (n + 1) * 0).
Proof.
  split; [left; lia |].
  apply (count_direction_run board_four (-1) 7 1 0 1). left. lia.
Defined.

(** X2.  [is_full] is true exactly when no cell is Empty, which is
    exactly when [get_valid_moves] is empty. *)
Theorem is_full_iff (b : Board) :
  wf_board b ->
  (is_full b = true <-> get_valid_moves b = []) /\
  (is_full b = true <-> forall x y, in_range b x y = true -> cell b x y <> 0).
Proof.
  intros Hwf.
  assert (H1 : is_full b = true <-> get_valid_moves b = []).
  { split; [by apply is_full_no_moves | by apply no_moves_is_full]. }
  split; [done |]. rewrite H1. split.
  - intros Hnil x y Hin Hc.
    assert (Hv : (x, y) ∈ get_valid_moves b).
    { apply elem_of_get_valid_moves, is_valid_move_spec. by split. }
    rewrite Hnil in Hv. by apply elem_of_nil in Hv.
  - intros Hall. destruct (get_valid_moves b) as [| [x y] rest] eqn:Hm; [done |].
    assert (Hv : is_valid_move b x y = true).
    { apply elem_of_get_valid_moves. rewrite Hm. left. }
    apply is_valid_move_spec in Hv as [Hin Hc]. by destruct (Hall x y Hin).
Qed.

Lemma is_full_iff_witness :
  wf_board board_centre /\
  (is_full board_centre = true <-> get_valid_moves board_centre = []) /\
  (is_full board_centre = true <->
     forall x y, in_range board_centre x y = true -> cell board_centre x y <> 0).
Proof.
  assert (Hwf : wf_board board_centre).
  { split; [vm_compute; discriminate | split; [reflexivity | repeat constructor]]. }
  split; [exact Hwf |]. apply (is_full_iff board_centre Hwf).
Defined.

Lemma cell_Board_init n x y : cell (Board_init n) x y = 0.
Proof.
  unfold cell, Board_init; simpl.
  destruct (replicate (Z.to_nat n) (replicate (Z.to_nat n) 0) !! Z.to_nat y)
    as [row |] eqn:Hrow; [| done].
  apply lookup_replicate in Hrow as [-> _].
  destruct (replicate (Z.to_nat n) 0 !! Z.to_nat x) as [c |] eqn:Hc; [| done].
  by apply lookup_replicate in Hc as [-> _].
Qed.

Lemma length_bind_const {A B} (f : A -> list B) (l : list A) (k : nat) :
  Forall (fun a => length (f a) = k) l -> length (l ≫= f) = (length l * k)%nat.
Proof.
  induction 1 as [| a l Ha _ IH]; [done |].
  rewrite bind_cons, length_app, Ha, IH. simpl. lia.
Qed.

Lemma length_cells b : length (cells b) = (Z.to_nat (size b) * Z.to_nat (size b))%nat.
Proof.
  unfold cells. rewrite (length_bind_const _ _ (Z.to_nat (size b))).
  - unfold range. by rewrite length_seqZ.
  - apply Forall_forall. intros y _. rewrite (length_bind_const _ _ 1%nat).
    + unfold range. rewrite length_seqZ. lia.
    + by apply Forall_forall.
Qed.

(** On a board whose in-range cells are all Empty, every cell is a
    legal move. *)
Lemma get_valid_moves_all_empty b :
  (forall x y, in_range b x y = true -> cell b x y = 0) ->
  get_valid_moves b = cells b.
Proof.
  intros Hall. unfold get_valid_moves, cells.
  apply Forall_bind_ext, Forall_forall. intros y Hy.
  apply Forall_bind_ext, Forall_forall. intros x Hx.
  apply elem_of_range in Hx, Hy.
  assert (Hv : is_valid_move b x y = true).
  { apply is_valid_move_spec. split; [apply in_range_spec; lia |].
    apply Hall, in_range_spec. lia. }
  by rewrite Hv.
Qed.

(** X3.  A board after [reset], which is the fresh board of its
    size, keeps that size and has every cell Empty, and every one of the [size * size] cells as a
    legal move, in row-major order; with a positive size it is not
    full. *)
Theorem reset_all_empty (b : Board) :
  0 <= size b ->
  wf_board (reset b) /\ size (reset b) = size b /\
  (forall x y, cell (reset b) x y = 0) /\
  get_valid_moves (reset b) = cells b /\
  length (get_valid_moves (reset b)) = Z.to_nat (size b * size b) /\
  (0 < size b -> is_full (reset b) = false).
Proof.
  intros Hs. unfold reset.
  assert (Hm : get_valid_moves (Board_init (size b)) = cells b).
  { rewrite get_valid_moves_all_empty; [done |]. intros. apply cell_Board_init. }
  split; [by apply wf_Board_init |]. split; [done |].
  split; [apply cell_Board_init |]. split; [done |]. split.
  - rewrite Hm, length_cells. lia.
  - intros Hpos. destruct (is_full (Board_init (size b))) eqn:Hfull; [| done].
    apply is_full_no_moves in Hfull; [| by apply wf_Board_init].
    rewrite Hm in Hfull. apply (f_equal length) in Hfull.
    rewrite length_cells in Hfull. simpl in Hfull. nia.
Qed.

Lemma reset_all_empty_witness :
  0 <= size board_five /\
  wf_board (reset board_five) /\ size (reset board_five) = size board_five /\
  (forall x y, cell (reset board_five) x y = 0) /\
  get_valid_moves (reset board_five) = cells board_five /\
  length (get_valid_moves (reset board_five)) = Z.to_nat (size board_five * size board_five) /\
  (0 < size board_five -> is_full (reset board_five) = false).
Proof.
  assert (Hs : 0 <= size board_five) by (vm_compute; discriminate).
  split; [exact Hs |]. apply (reset_all_empty board_five Hs).
Defined.

(** The counts of [check_win] along one axis, with [(x, y)] itself, fit
    on the board. *)
Lemma axis_count_le_size b x y dx dy player f g :
  (dx, dy) ∈ directions -> in_range b x y = true ->
  count_direction b x y dx dy player = Some f ->
  count_direction b x y (- dx) (- dy) player = Some g ->
  1 + f + g <= size b.
Proof.
  intros Hd [Hx Hy]%in_range_spec Hf Hg.
  apply count_direction_spec in Hf as (Hf0 & Hfall & _).
  apply count_direction_spec in Hg as (Hg0 & Hgall & _).
  assert (Hf' : 0 < f -> 0 <= x + f * dx < size b /\ 0 <= y + f * dy < size b).
  { intros Hpos. destruct (Hfall f ltac:(lia)) as [Hin _]. by apply in_range_spec. }
  assert (Hg' : 0 < g -> 0 <= x + g * - dx < size b /\ 0 <= y + g * - dy < size b).
  { intros Hpos. destruct (Hgall g ltac:(lia)) as [Hin _]. by apply in_range_spec. }
  unfold directions in Hd. rewrite !elem_of_cons, elem_of_nil in Hd.
  destruct (decide (f = 0)) as [-> | Hfz], (decide (g = 0)) as [-> | Hgz];
    destruct Hd as [E | [E | [E | [E | []]]]]; injection E as -> ->; lia.
Qed.

Lemma check_win_loop_true b x y player dirs :
  check_win_loop b x y player dirs = Some true ->
  exists dx dy f g, (dx, dy) ∈ dirs /\
    count_direction b x y dx dy player = Some f /\
    count_direction b x y (- dx) (- dy) player = Some g /\
    5 <= 1 + f + g.
Proof.
  induction dirs as [| [dx dy] rest IH]; simpl; [done |].
  destruct (count_direction b x y dx dy player) as [f |] eqn:Hf; [| done].
  destruct (count_direction b x y (- dx) (- dy) player) as [g |] eqn:Hg; [| done].
  simpl. destruct (Z.geb_spec (1 + f + g) win_length) as [Hge | Hlt].
  - intros _. exists dx, dy, f, g. split; [left |]. unfold win_length in Hge. by repeat split.
  - intros (dx' & dy' & f' & g' & Hin & H)%IH. exists dx', dy', f', g'.
    split; [by right | done].
Qed.

(** X4.  For a position on the board, [check_win] can only be true on a
    board of size 5 or more: a board smaller than 5 x 5 never reports a
    win. *)
Theorem check_win_needs_size_five (b : Board) (x y player : Z) :
  in_range b x y = true ->
  (check_win b x y player = Some true -> 5 <= size b) /\
  (size b < 5 -> check_win b x y player = Some false).
Proof.
  intros Hin.
  assert (H5 : check_win b x y player = Some true -> 5 <= size b).
  { intros (dx & dy & f & g & Hd & Hf & Hg & Hsum)%check_win_loop_true.
    pose proof (axis_count_le_size b x y dx dy player f g Hd Hin Hf Hg). lia. }
  split; [done |]. intros Hsmall.
  destruct (check_win_total b x y player) as [[|] Hr]; [| done].
  specialize (H5 Hr). lia.
Qed.

Lemma check_win_needs_size_five_witness :
  in_range board_centre 1 1 = true /\
  (check_win board_centre 1 1 1 = Some true -> 5 <= size board_centre) /\
  (size board_centre < 5 -> check_win board_centre 1 1 1 = Some false).
Proof.
  split; [reflexivity |]. apply (check_win_needs_size_five board_centre 1 1 1).
  reflexivity.
Defined.

Lemma filter_bind {A B} (P : B -> Prop) `{!forall b, Decision (P b)}
    (f : A -> list B) (l : list A) :
  filter P (l ≫= f) = l ≫= (fun a => filter P (f a)).
Proof.
  induction l as [| a l IH]; [done |].
  by rewrite !bind_cons, filter_app, IH.
Qed.

Lemma StronglySorted_NoDup {A} (R : relation A) (l : list A) :
  (forall a, ~ R a a) -> StronglySorted R l -> NoDup l.
Proof.
  intros Hirr. induction 1 as [| a l _ IH Ha]; constructor; [| done].
  intros Hin. rewrite Forall_forall in Ha. by apply (Hirr a), Ha.
Qed.

Lemma get_valid_moves_NoDup b : NoDup (get_valid_moves b).
Proof.
  apply (StronglySorted_NoDup row_major); [| apply get_valid_moves_sorted].
  intros [x y]. unfold row_major. simpl. lia.
Qed.

Lemma length_filter_remove {A} `{EqDecision A} (m : A) (l : list A) :
  NoDup l -> m ∈ l -> S (length (filter (fun m' => m' <> m) l)) = length l.
Proof.
  induction 1 as [| a l Ha Hnd IH]; intros Hin; [by apply elem_of_nil in Hin |].
  destruct (decide (a = m)) as [-> | Hne].
  - rewrite filter_cons_False by (intros H; by apply H). simpl. f_equal.
    clear IH Hin. induction l as [| a' l IH]; [done |].
    apply not_elem_of_cons in Ha as [Hne Ha].
    rewrite filter_cons_True by (intros E; by apply Hne). simpl. f_equal.
    apply IH; [done |]. by apply NoDup_cons in Hnd as [_ Hnd].
  - rewrite filter_cons_True by done. simpl. f_equal. apply IH.
    apply elem_of_cons in Hin as [E | Hin]; [by destruct Hne | done].
Qed.

(** X5.  A successful placement of a non-Empty value takes the cell
    out of play: the cell is no longer a valid move, a second
    [place_stone] on it fails and leaves the stone, and the legal moves
    of the new board are those of the old one without [(x, y)], in the
    same order. *)
Theorem place_stone_takes_move (b : Board) (x y player q : Z) :
  wf_board b -> is_valid_move b x y = true -> player <> 0 ->
  is_valid_move (place_stone b x y player).2 x y = false /\
  place_stone (place_stone b x y player).2 x y q
    = (false, (place_stone b x y player).2) /\
  get_valid_moves (place_stone b x y player).2
    = filter (fun m => m <> (x, y)) (get_valid_moves b) /\
  S (length (get_valid_moves (place_stone b x y player).2))
    = length (get_valid_moves b).
Proof.
  intros Hwf Hv Hp. rewrite place_stone_valid by done. simpl.
  pose proof Hv as [Hin Hc]%is_valid_move_spec.
  pose proof Hin as [Hx Hy]%in_range_spec.
  assert (Hv' : is_valid_move (set_cell b x y player) x y = false).
  { apply not_true_iff_false. intros [_ Hc']%is_valid_move_spec.
    rewrite cell_set_cell_eq in Hc' by done. done. }
  assert (Hmoves : get_valid_moves (set_cell b x y player)
                   = filter (fun m => m <> (x, y)) (get_valid_moves b)).
  { unfold get_valid_moves. rewrite filter_bind. simpl.
    apply Forall_bind_ext, Forall_forall. intros y' Hy'. rewrite filter_bind.
    apply Forall_bind_ext, Forall_forall. intros x' Hx'.
    apply elem_of_range in Hx', Hy'.
    destruct (decide ((x', y') = (x, y))) as [E | Hne].
    - injection E as -> ->. rewrite Hv', Hv.
      by rewrite filter_cons_False by (intros H; by apply H).
    - assert (Hsame : is_valid_move (set_cell b x y player) x' y'
                      = is_valid_move b x' y').
      { unfold is_valid_move. simpl. by rewrite cell_set_cell_ne by (lia || done). }
      rewrite Hsame. destruct (is_valid_move b x' y'); [| done].
      by rewrite filter_cons_True by done. }
  split; [done |]. split; [| split; [done |]].
  - unfold place_stone. by rewrite Hv'.
  - rewrite Hmoves. apply length_filter_remove; [apply get_valid_moves_NoDup |].
    by apply elem_of_get_valid_moves.
Qed.

Lemma place_stone_takes_move_witness :
  wf_board board_four /\ is_valid_move board_four 4 7 = true /\ 1 <> 0 /\
  is_valid_move (place_stone board_four 4 7 1).2 4 7 = false /\
  place_stone (place_stone board_four 4 7 1).2 4 7 2
    = (false, (place_stone board_four 4 7 1).2) /\
  get_valid_moves (place_stone board_four 4 7 1).2
    = filter (fun m => m <> (4, 7)) (get_valid_moves board_four) /\
  S (length (get_valid_moves (place_stone board_four 4 7 1).2))
    = length (get_valid_moves board_four).
Proof.
  assert (Hwf : wf_board board_four).
  { split; [vm_compute; discriminate | split; [reflexivity | repeat constructor]]. }
  split; [exact Hwf |]. split; [reflexivity |]. split; [lia |].
  apply (place_stone_takes_move board_four 4 7 1 2 Hwf); [reflexivity | lia].
Defined.

(** ** Further properties of the evaluation *)

(** A scan of [evaluate_position] counts the same run as
    [count_direction], and adds one blocked end exactly when the run
    stops on an occupied cell of the board. *)
Lemma scan_loop_spec b sx sy player :
  forall fuel count blocked nx ny count' blocked',
    scan_loop fuel b sx sy player count blocked nx ny = Some (count', blocked') ->
    exists n, 0 <= n /\ count' = count + n /\
      (forall k, 0 <= k < n -> holds b player (nx + k * sx) (ny + k * sy)) /\
      ~ holds b player (nx + n * sx) (ny + n * sy) /\
      blocked' = blocked + end_blocked b (nx + n * sx) (ny + n * sy).
Proof.
  induction fuel as [| fuel IH]; intros count blocked nx ny count' blocked' Hr; [done |].
  simpl in Hr. destruct (in_range b nx ny) eqn:Hin.
  - destruct (Z.eqb_spec (cell b nx ny) player) as [Hc | Hc].
    + destruct (IH _ _ _ _ _ _ Hr) as (n & Hn & -> & Hall & Hstop & Hb).
      exists (n + 1). split; [lia |]. split; [lia |]. split; [| split].
      * intros k Hk. destruct (decide (k = 0)) as [-> | Hk0].
        -- rewrite !Z.mul_0_l, !Z.add_0_r. by split.
        -- specialize (Hall (k - 1) ltac:(lia)).
           by replace (nx + sx + (k - 1) * sx) with (nx + k * sx) in Hall by lia;
              replace (ny + sy + (k - 1) * sy) with (ny + k * sy) in Hall by lia.
      * by replace (nx + (n + 1) * sx) with (nx + sx + n * sx) by lia;
           replace (ny + (n + 1) * sy) with (ny + sy + n * sy) by lia.
      * by replace (nx + (n + 1) * sx) with (nx + sx + n * sx) by lia;
           replace (ny + (n + 1) * sy) with (ny + sy + n * sy) by lia.
    + exists 0. rewrite !Z.mul_0_l, !Z.add_0_r.
      assert (Hno : ~ holds b player nx ny) by (intros [_ E]; done).
      unfold end_blocked. rewrite Hin. simpl.
      destruct (negb (cell b nx ny =? 0)); injection Hr as <- <-;
        (split; [lia |]; split; [lia |]; split; [lia |]; split; [done | lia]).
  - injection Hr as <- <-. exists 0. rewrite !Z.mul_0_l, !Z.add_0_r.
    unfold end_blocked. rewrite Hin. simpl.
    split; [lia |]. split; [lia |]. split; [lia |]. split; [| lia].
    intros [E _]. congruence.
Qed.

(** Two descriptions of the run from one start have one length. *)
Lemma run_length_unique b player nx ny sx sy n1 n2 :
  0 <= n1 -> 0 <= n2 ->
  (forall k, 0 <= k < n1 -> holds b player (nx + k * sx) (ny + k * sy)) ->
  ~ holds b player (nx + n1 * sx) (ny + n1 * sy) ->
  (forall k, 0 <= k < n2 -> holds b player (nx + k * sx) (ny + k * sy)) ->
  ~ holds b player (nx + n2 * sx) (ny + n2 * sy) ->
  n1 = n2.
Proof.
  intros H1 H2 Hall1 Hstop1 Hall2 Hstop2.
  destruct (Z.lt_trichotomy n1 n2) as [Hlt | [-> | Hgt]]; [| done |].
  - destruct Hstop1. apply Hall2. lia.
  - destruct Hstop2. apply Hall1. lia.
Qed.

Lemma scan_count b x y dx dy player count blocked count' blocked' f :
  scan b dx dy player count blocked (x + dx) (y + dy) = Some (count', blocked') ->
  count_direction b x y dx dy player = Some f ->
  count' = count + f /\
  blocked' = blocked + end_blocked b (x + (f + 1) * dx) (y + (f + 1) * dy).
Proof.
  intros Hs Hf. apply scan_loop_spec in Hs as (n & Hn & -> & Hall & Hstop & ->).
  apply count_direction_loop_spec in Hf as (m & Hm & -> & Hall' & Hstop').
  assert (n = m) as -> by (by eapply run_length_unique).
  rewrite Z.add_0_l. split; [done |]. do 2 f_equal; lia.
Qed.

Lemma end_blocked_range b x y : 0 <= end_blocked b x y <= 1.
Proof. unfold end_blocked. case_match; lia. Qed.

Lemma calculate_line_score_won count blocked :
  5 <= count -> calculate_line_score count blocked = 100000.
Proof.
  intros H. unfold calculate_line_score.
  destruct (Z.geb_spec count 5); [done | lia].
Qed.

Lemma calculate_line_score_small count blocked :
  1 <= count < 5 -> 0 <= calculate_line_score count blocked <= 1000.
Proof.
  intros H. unfold calculate_line_score.
  destruct (Z.geb_spec count 5); [lia |].
  assert (Hc : count = 1 \/ count = 2 \/ count = 3 \/ count = 4) by lia.
  destruct (blocked =? 2); [lia |].
  destruct (blocked =? 1); destruct Hc as [-> | [-> | [-> | ->]]];
    vm_compute; split; discriminate.
Qed.

Lemma evaluate_position_loop_bounds b x y player dirs :
  dirs ⊆ directions ->
  forall total s,
    evaluate_position_loop b x y player dirs total = Some s ->
    (check_win_loop b x y player dirs = Some true ->
       100000 <= s - total <= 100000 * Z.of_nat (length dirs)) /\
    (check_win_loop b x y player dirs = Some false ->
       0 <= s - total <= 1000 * Z.of_nat (length dirs)).
Proof.
  induction dirs as [| [dx dy] rest IH]; intros Hsub total s Hs.
  - simpl in *. injection Hs as <-. split; [done | intros _; lia].
  - destruct (directions_move dx dy) as [H1 H2]; [apply Hsub; left |].
    destruct (count_direction_total b x y dx dy player H1) as [f Hf].
    destruct (count_direction_total b x y (- dx) (- dy) player H2) as [g Hg].
    simpl in Hs |- *. rewrite Hf, Hg. simpl.
    destruct (scan b dx dy player 1 0 (x + dx) (y + dy)) as [[c1 k1] |] eqn:Hs1;
      [| done]. simpl in Hs.
    destruct (scan b (- dx) (- dy) player c1 k1 (x - dx) (y - dy))
      as [[c2 k2] |] eqn:Hs2; [| done]. simpl in Hs.
    destruct (scan_count b x y dx dy player 1 0 c1 k1 f Hs1 Hf) as [-> ->].
    replace (x - dx) with (x + - dx) in Hs2 by lia.
    replace (y - dy) with (y + - dy) in Hs2 by lia.
    destruct (scan_count b x y (- dx) (- dy) player _ _ c2 k2 g Hs2 Hg) as [-> ->].
    pose proof (count_direction_spec _ _ _ _ _ _ _ Hf) as (Hf0 & _).
    pose proof (count_direction_spec _ _ _ _ _ _ _ Hg) as (Hg0 & _).
    assert (Hrest : rest ⊆ directions) by (intros d Hd; apply Hsub; by right).
    destruct (IH Hrest _ _ Hs) as [IHt IHf].
    destruct (check_win_loop_total b x y player rest Hrest) as [w Hw].
    set (k2 := 0 + end_blocked b (x + (f + 1) * dx) (y + (f + 1) * dy)
                 + end_blocked b (x + (g + 1) * - dx) (y + (g + 1) * - dy)) in *.
    assert (Hgen : 0 <= s - (total + calculate_line_score (1 + f + g) k2)
                   <= 100000 * Z.of_nat (length rest)).
    { destruct w; [specialize (IHt Hw) | specialize (IHf Hw)]; lia. }
    rewrite Nat2Z.inj_succ.
    destruct (Z.geb_spec (1 + f + g) win_length) as [Hge | Hlt]; unfold win_length in *.
    + rewrite calculate_line_score_won in * by lia. split; [intros _; lia | done].
    + pose proof (calculate_line_score_small (1 + f + g) k2 ltac:(lia)).
      rewrite Hw. split.
      * intros [= ->]. specialize (IHt Hw). lia.
      * intros [= ->]. specialize (IHf Hw). lia.
Qed.

Lemma evaluate_position_score b x y player :
  exists s, evaluate_position b x y player = Some s /\
    0 <= s <= 400000 /\
    (100000 <= s <-> check_win b x y player = Some true) /\
    (check_win b x y player = Some false -> s <= 4000).
Proof.
  destruct (evaluate_position_total b x y player) as [s Hs]. exists s.
  split; [done |].
  destruct (evaluate_position_loop_bounds b x y player directions (fun d Hd => Hd)
              0 s Hs) as [Ht Hf].
  fold (check_win b x y player) in Ht, Hf.
  destruct (check_win_total b x y player) as [w Hw]. rewrite Hw in *.
  simpl in Ht, Hf.
  destruct w; [specialize (Ht eq_refl) | specialize (Hf eq_refl)].
  - split; [lia |]. split; [split; [done | lia] | done].
  - split; [lia |]. split; [split; [lia | done] | intros _; lia].
Qed.

(** X6.  The score of a position is the sum of four line scores: it
    lies between 0 and 400000, it reaches 100000 exactly when
    [check_win] holds at that position for the same player, and it is at
    most 4000 otherwise. *)
Theorem evaluate_position_range (b : Board) (x y player : Z) :
  exists s, evaluate_position b x y player = Some s /\
    0 <= s <= 400000 /\
    (100000 <= s <-> check_win b x y player = Some true) /\
    (check_win b x y player = Some false -> s <= 4000).
Proof. apply evaluate_position_score. Qed.

Lemma evaluate_position_loop_lines b x y player dirs :
  dirs ⊆ directions ->
  forall total,
    evaluate_position_loop b x y player dirs total
    = Some (total + foldr (fun d acc => line_score b x y player d.1 d.2 + acc) 0 dirs).
Proof.
  induction dirs as [| [dx dy] rest IH]; intros Hsub total.
  - simpl. f_equal. lia.
  - destruct (directions_move dx dy) as [H1 H2]; [apply Hsub; left |].
    destruct (count_direction_total b x y dx dy player H1) as [f Hf].
    destruct (count_direction_total b x y (- dx) (- dy) player H2) as [g Hg].
    destruct (scan_total b dx dy player 1 0 (x + dx) (y + dy) H1) as [[c1 k1] Hs1].
    destruct (scan_total b (- dx) (- dy) player c1 k1 (x + - dx) (y + - dy) H2)
      as [[c2 k2] Hs2].
    destruct (scan_count b x y dx dy player 1 0 c1 k1 f Hs1 Hf) as [-> ->].
    destruct (scan_count b x y (- dx) (- dy) player _ _ c2 k2 g Hs2 Hg) as [-> ->].
    simpl. rewrite Hs1. simpl.
    replace (x - dx) with (x + - dx) by lia. replace (y - dy) with (y + - dy) by lia.
    rewrite Hs2. simpl.
    rewrite IH by (intros d Hd; apply Hsub; by right).
    unfold line_score at 2. rewrite Hf, Hg. f_equal.
    replace (x - (g + 1) * dx) with (x + (g + 1) * - dx) by lia.
    replace (y - (g + 1) * dy) with (y + (g + 1) * - dy) by lia.
    rewrite Z.add_0_l. lia.
Qed.

(** X7.  [evaluate_position] is the sum, over the horizontal, the
    vertical and the two diagonals, of [calculate_line_score] applied to
    the run that [count_direction] counts both ways through [(x, y)] and
    to the number of its ends that stop on an occupied cell; an end on
    the edge of the board or on an Empty cell is not blocked. *)
Theorem evaluate_position_lines (b : Board) (x y player : Z) :
  evaluate_position b x y player
  = Some (line_score b x y player 1 0 + line_score b x y player 0 1
          + line_score b x y player 1 1 + line_score b x y player 1 (-1)).
Proof.
  unfold evaluate_position.
  rewrite evaluate_position_loop_lines by done. simpl. f_equal. lia.
Qed.

Lemma evaluate_board_loop_bound ai b cs :
  forall acc s,
    evaluate_board_loop ai b cs acc = Some s ->
    Z.abs (s - acc) <= 400000 * Z.of_nat (length cs).
Proof.
  induction cs as [| [x y] rest IH]; intros acc s Hs; simpl in Hs.
  - injection Hs as <-. simpl. lia.
  - rewrite length_cons, Nat2Z.inj_succ.
    destruct (negb (cell b x y =? 0)).
    + destruct (evaluate_position_score b x y (cell b x y)) as (ps & Hps & Hr & _).
      rewrite Hps in Hs. simpl in Hs.
      destruct (cell b x y =? AI.player ai); apply IH in Hs; lia.
    + apply IH in Hs. lia.
Qed.

Lemma evaluate_board_abs ai b :
  exists s, evaluate_board ai b = Some s /\
    Z.abs s <= 400000 * (Z.max 0 (size b) * Z.max 0 (size b)).
Proof.
  destruct (evaluate_board_total ai b) as [s Hs]. exists s. split; [done |].
  apply evaluate_board_loop_bound in Hs. rewrite length_cells in Hs.
  rewrite Nat2Z.inj_mul in Hs.
  assert (E : Z.of_nat (Z.to_nat (size b)) = Z.max 0 (size b)) by lia.
  rewrite E in Hs. lia.
Qed.

(** X8.  The static evaluation of a board is bounded: no cell
    contributes more than 400000 either way. *)
Theorem evaluate_board_bound (ai : AI.t) (b : Board) :
  exists s, evaluate_board ai b = Some s /\
    Z.abs s <= 400000 * (Z.max 0 (size b) * Z.max 0 (size b)).
Proof. apply evaluate_board_abs. Qed.

Lemma evaluate_board_loop_zero_sum ai1 ai2 b cs :
  AI.player ai1 <> AI.player ai2 ->
  (forall x y, (x, y) ∈ cs ->
     cell b x y = 0 \/ cell b x y = AI.player ai1 \/ cell b x y = AI.player ai2) ->
  forall a1 a2 s1,
    evaluate_board_loop ai1 b cs a1 = Some s1 ->
    evaluate_board_loop ai2 b cs a2 = Some (a1 + a2 - s1).
Proof.
  intros Hne. induction cs as [| [x y] rest IH]; intros Hcells a1 a2 s1 Hs; simpl in *.
  - injection Hs as <-. f_equal. lia.
  - assert (Hrest : forall x' y', (x', y') ∈ rest ->
              cell b x' y' = 0 \/ cell b x' y' = AI.player ai1 \/
              cell b x' y' = AI.player ai2).
    { intros x' y' Hin. apply Hcells. by right. }
    specialize (IH Hrest).
    destruct (Hcells x y ltac:(left)) as [Hc | [Hc | Hc]].
    + rewrite Hc in *. simpl in *. by apply IH.
    + destruct (negb (cell b x y =? 0)); [| by apply IH].
      destruct (evaluate_position b x y (cell b x y)) as [ps |]; [| done].
      simpl in *. rewrite Hc in *. rewrite Z.eqb_refl in Hs.
      destruct (Z.eqb_spec (AI.player ai1) (AI.player ai2)) as [E | _]; [done |].
      apply (IH _ (a2 - ps)) in Hs. rewrite Hs. f_equal. lia.
    + destruct (negb (cell b x y =? 0)); [| by apply IH].
      destruct (evaluate_position b x y (cell b x y)) as [ps |]; [| done].
      simpl in *. rewrite Hc in *. rewrite Z.eqb_refl.
      destruct (Z.eqb_spec (AI.player ai2) (AI.player ai1)) as [E | _]; [by destruct Hne |].
      apply (IH _ (a2 + ps)) in Hs. rewrite Hs. f_equal. lia.
Qed.

(** X9.  The evaluation is zero-sum: on a board whose stones are those
    of two players, the evaluation for an engine playing one of them is
    the negation of the evaluation for an engine playing the other. *)
Theorem evaluate_board_zero_sum (ai1 ai2 : AI.t) (b : Board) :
  AI.player ai1 <> AI.player ai2 ->
  (forall x y, in_range b x y = true ->
     cell b x y = 0 \/ cell b x y = AI.player ai1 \/ cell b x y = AI.player ai2) ->
  exists s, evaluate_board ai1 b = Some s /\ evaluate_board ai2 b = Some (- s).
Proof.
  intros Hne Hcells. destruct (evaluate_board_total ai1 b) as [s Hs].
  exists s. split; [done |]. unfold evaluate_board in *.
  rewrite (evaluate_board_loop_zero_sum ai1 ai2 b (cells b) Hne) with (a1 := 0) (s1 := s).
  - f_equal; lia.
  - intros x y Hin. by apply Hcells, elem_of_cells.
  - done.
Qed.

Lemma evaluate_board_zero_sum_witness :
  AI.player (AI.mk 2 "Normal" 1 2) <> AI.player (AI_init 3 "Normal") /\
  exists s, evaluate_board (AI.mk 2 "Normal" 1 2) board_four = Some s /\
            evaluate_board (AI_init 3 "Normal") board_four = Some (- s).
Proof.
  assert (Hne : AI.player (AI.mk 2 "Normal" 1 2) <> AI.player (AI_init 3 "Normal"))
    by (simpl; lia).
  split; [exact Hne |].
  apply (evaluate_board_zero_sum (AI.mk 2 "Normal" 1 2) (AI_init 3 "Normal")
           board_four Hne).
  intros x y Hin%elem_of_cells.
  assert (Hall : forallb (fun m : Z * Z =>
                   (cell board_four m.1 m.2 =? 0) || (cell board_four m.1 m.2 =? 1)
                   || (cell board_four m.1 m.2 =? 2)) (cells board_four) = true)
    by (vm_compute; reflexivity).
  apply Is_true_true_2 in Hall. rewrite forallb_True, Forall_forall in Hall.
  specialize (Hall (x, y) Hin). simpl in Hall.
  apply Is_true_true_1 in Hall. rewrite !orb_true_iff, !Z.eqb_eq in Hall.
  simpl. tauto.
Defined.

(** ** Terminal positions *)

Lemma is_game_over_loop_true b cs :
  is_game_over_loop b cs = Some true <->
  exists x y, (x, y) ∈ cs /\ cell b x y <> 0 /\
              check_win b x y (cell b x y) = Some true.
Proof.
  induction cs as [| [x y] rest IH]; simpl.
  - split; [done |]. intros (x & y & Hin & _). by apply elem_of_nil in Hin.
  - destruct (Z.eqb_spec (cell b x y) 0) as [Hc | Hc]; simpl.
    + rewrite IH. split.
      * intros (x' & y' & Hin & H). exists x', y'. split; [by right | done].
      * intros (x' & y' & Hin & Hc' & H). exists x', y'.
        apply elem_of_cons in Hin as [E | Hin]; [| done].
        injection E as -> ->. done.
    + destruct (check_win_total b x y (cell b x y)) as [w Hw]. rewrite Hw. simpl.
      destruct w.
      * split; [| done]. intros _. exists x, y. split; [left | done].
      * rewrite IH. split.
        -- intros (x' & y' & Hin & H). exists x', y'. split; [by right | done].
        -- intros (x' & y' & Hin & Hc' & H). exists x', y'.
           apply elem_of_cons in Hin as [E | Hin]; [| done].
           injection E as -> ->. congruence.
Qed.

Lemma check_win_has_five b x y :
  in_range b x y = true -> cell b x y <> 0 ->
  check_win b x y (cell b x y) = Some true <->
  exists dx dy, (dx, dy) ∈ directions /\ five_through b (cell b x y) x y dx dy.
Proof.
  intros Hin Hc. apply check_win_loop_spec; [by split | done].
Qed.

Lemma is_game_over_spec b :
  exists r, is_game_over b = Some r /\
    (r = true <-> (is_full b = true \/ has_five b)).
Proof.
  destruct (is_game_over_total b) as [r Hr]. exists r. split; [done |].
  assert (Hloop : is_game_over_loop b (cells b) = Some true <-> has_five b).
  { rewrite is_game_over_loop_true. unfold has_five. split.
    - intros (x & y & Hin%elem_of_cells & Hc & Hw).
      apply check_win_has_five in Hw as (dx & dy & Hd & H5); [| done ..].
      by exists x, y, dx, dy.
    - intros (x & y & dx & dy & Hin & Hc & Hd & H5). exists x, y.
      split; [by apply elem_of_cells |]. split; [done |].
      apply check_win_has_five; [done .. |]. by exists dx, dy. }
  unfold is_game_over in Hr. destruct (is_full b).
  - injection Hr as <-. split; [by left | done].
  - rewrite <- Hloop, Hr. split.
    + intros ->. by right.
    + intros [? | [= ->]]; done.
Qed.

(** X10.  [is_game_over] is true exactly when the board is full or
    some stone, of any non-zero value, is part of five in a row along
    one of the four axes. *)
Theorem is_game_over_iff (b : Board) :
  exists r, is_game_over b = Some r /\
    (r = true <-> (is_full b = true \/ has_five b)).
Proof. apply is_game_over_spec. Qed.

(** X11.  [get_random_move] returns no move exactly when the board
    has no legal move; a move it returns is a legal one. *)
Theorem get_random_move_valid (b : Board) (rnd : nat) :
  (get_random_move b rnd = None <-> get_valid_moves b = []) /\
  (forall x y, get_random_move b rnd = Some (x, y) -> is_valid_move b x y = true).
Proof.
  unfold get_random_move. destruct (get_valid_moves b) as [| m0 rest] eqn:Hm.
  - split; [done | done].
  - destruct (random_choice_elem_of rnd (m0 :: rest)) as (m & Hr & Hin); [done |].
    rewrite Hr. split; [split; done |].
    intros x y [= ->]. apply elem_of_get_valid_moves. by rewrite Hm.
Qed.

(** Five in a row through one cell is five in a row through each of
    its cells. *)
Lemma five_through_shift b q x0 y0 dx dy a k :
  0 <= a <= 4 -> - a <= k <= 4 - a ->
  (forall j, - a <= j <= 4 - a -> holds b q (x0 + j * dx) (y0 + j * dy)) ->
  five_through b q (x0 + k * dx) (y0 + k * dy) dx dy.
Proof.
  intros Ha Hk Hrun. exists (a + k). split; [lia |]. intros j Hj.
  specialize (Hrun (k + j) ltac:(lia)).
  by replace (x0 + (k + j) * dx) with (x0 + k * dx + j * dx) in Hrun by lia;
     replace (y0 + (k + j) * dy) with (y0 + k * dy + j * dy) in Hrun by lia.
Qed.

(** Among five consecutive offsets, one satisfies a decidable property
    or none does. *)
Lemma five_offsets (P : Z -> Prop) `{!forall k, Decision (P k)} (a : Z) :
  (exists k, - a <= k <= 4 - a /\ P k) \/ (forall k, - a <= k <= 4 - a -> ~ P k).
Proof.
  destruct (decide (P (- a))) as [H0 | H0]; [left; exists (- a); split; [lia | done] |].
  destruct (decide (P (1 - a))) as [H1 | H1]; [left; exists (1 - a); split; [lia | done] |].
  destruct (decide (P (2 - a))) as [H2 | H2]; [left; exists (2 - a); split; [lia | done] |].
  destruct (decide (P (3 - a))) as [H3 | H3]; [left; exists (3 - a); split; [lia | done] |].
  destruct (decide (P (4 - a))) as [H4 | H4]; [left; exists (4 - a); split; [lia | done] |].
  right. intros k Hk.
  assert (Hc : k = - a \/ k = 1 - a \/ k = 2 - a \/ k = 3 - a \/ k = 4 - a) by lia.
  destruct Hc as [-> | [-> | [-> | [-> | ->]]]]; done.
Qed.

(** A five on the board after a placement passes through the new stone
    or was on the board before. *)
Lemma has_five_after_place b x y p :
  wf_board b -> is_valid_move b x y = true -> p <> 0 ->
  has_five (set_cell b x y p) ->
  (exists dx dy, (dx, dy) ∈ directions /\ five_through (set_cell b x y p) p x y dx dy)
  \/ has_five b.
Proof.
  intros Hwf Hv Hp (x0 & y0 & dx & dy & Hin0 & Hc0 & Hd & a & Ha & Hrun).
  pose proof Hv as [Hin Hc]%is_valid_move_spec.
  pose proof Hin as [Hx Hy]%in_range_spec.
  remember (cell (set_cell b x y p) x0 y0) as q eqn:Eq.
  destruct (five_offsets (fun k => (x0 + k * dx, y0 + k * dy) = (x, y)) a)
    as [(k & Hk & E) | Hnone].
  - left. exists dx, dy. split; [done |]. injection E as Ex Ey.
    assert (Hq : q = p).
    { destruct (Hrun k Hk) as [_ Hcell]. rewrite Ex, Ey in Hcell.
      by rewrite cell_set_cell_eq in Hcell. }
    pose proof (five_through_shift (set_cell b x y p) q x0 y0 dx dy a k Ha Hk Hrun)
      as H5.
    by rewrite Ex, Ey, Hq in H5.
  - right.
    assert (Hsame : forall j, - a <= j <= 4 - a ->
              cell (set_cell b x y p) (x0 + j * dx) (y0 + j * dy)
              = cell b (x0 + j * dx) (y0 + j * dy)).
    { intros j Hj. destruct (Hrun j Hj) as [[Hjx Hjy]%in_range_spec _].
      simpl in Hjx, Hjy. apply cell_set_cell_ne; [lia .. |]. by apply Hnone. }
    assert (Hq : q = cell b x0 y0).
    { specialize (Hsame 0 ltac:(lia)). rewrite !Z.mul_0_l, !Z.add_0_r in Hsame.
      by rewrite Eq. }
    exists x0, y0, dx, dy. split; [done |]. rewrite <- Hq. split; [done |].
    split; [done |]. exists a. split; [done |]. intros j Hj.
    destruct (Hrun j Hj) as [Hinj Hcj]. split; [done |]. by rewrite <- Hsame.
Qed.

(** X12.  Checking the last move is enough: when the game was not over
    and a stone is placed on a legal cell, the game is over afterwards
    exactly when the board has become full or [check_win] holds at the
    stone just placed. *)
Theorem last_move_decides (b : Board) (x y p : Z) :
  wf_board b -> is_game_over b = Some false ->
  is_valid_move b x y = true -> p <> 0 ->
  is_game_over (place_stone b x y p).2 = Some true <->
  (is_full (place_stone b x y p).2 = true \/
   check_win (place_stone b x y p).2 x y p = Some true).
Proof.
  intros Hwf Hover Hv Hp. rewrite place_stone_valid by done. simpl.
  pose proof Hv as [Hin Hc]%is_valid_move_spec.
  assert (Hcell : cell (set_cell b x y p) x y = p) by (by apply cell_set_cell_eq).
  assert (Hno : ~ has_five b).
  { intros H5. destruct (is_game_over_spec b) as (r & Hr & Hiff).
    rewrite Hover in Hr. injection Hr as <-.
    assert (false = true) by (apply Hiff; by right). done. }
  assert (Hwin : check_win (set_cell b x y p) x y p = Some true <->
                 exists dx dy, (dx, dy) ∈ directions /\
                   five_through (set_cell b x y p) p x y dx dy).
  { pose proof (check_win_has_five (set_cell b x y p) x y) as H.
    rewrite Hcell in H. by apply H. }
  destruct (is_game_over_spec (set_cell b x y p)) as (r & Hr & Hiff). rewrite Hr.
  assert (Hr' : Some r = Some true <-> r = true) by (split; congruence).
  rewrite Hr', Hiff, Hwin. split.
  - intros [Hfull | H5]; [by left |].
    destruct (has_five_after_place b x y p Hwf Hv Hp H5) as [H | H]; [by right | done].
  - intros [Hfull | (dx & dy & Hd & H5)]; [by left |]. right.
    exists x, y, dx, dy. rewrite Hcell. done.
Qed.

Lemma last_move_decides_witness :
  wf_board board_four /\ is_game_over board_four = Some false /\
  is_valid_move board_four 4 7 = true /\ 1 <> 0 /\
  (is_game_over (place_stone board_four 4 7 1).2 = Some true <->
   (is_full (place_stone board_four 4 7 1).2 = true \/
    check_win (place_stone board_four 4 7 1).2 4 7 1 = Some true)).
Proof.
  assert (Hwf : wf_board board_four).
  { split; [vm_compute; discriminate | split; [reflexivity | repeat constructor]]. }
  split; [exact Hwf |]. split; [vm_compute; reflexivity |].
  split; [reflexivity |]. split; [lia |].
  apply (last_move_decides board_four 4 7 1 Hwf); [vm_compute; reflexivity | reflexivity | lia].
Defined.

(** ** Further properties of the search *)

(** What the maximizing loop returns is its initial maximum or one of
    the scores the recursive calls returned. *)
Lemma max_loop_result ai rec (P : score -> Prop) b moves :
  wf_board b ->
  Forall (fun m : move => is_valid_move b m.1 m.2 = true) moves ->
  (forall alpha beta x y s b',
     is_valid_move b x y = true ->
     rec alpha beta (set_cell b x y (AI.player ai)) = Some (s, b') -> P s) ->
  rec_returns rec b (AI.player ai) ->
  forall max_score alpha beta s b',
    max_loop ai rec moves max_score alpha beta b = Some (s, b') ->
    s = max_score \/ P s.
Proof.
  intros Hwf Hval HP Hrec. induction moves as [| [x y] rest IH];
    intros max_score alpha beta s b' Hs; simpl in Hs.
  - injection Hs as <- <-. by left.
  - apply Forall_cons in Hval as [Hv Hval]. simpl in Hv.
    rewrite speculative_place in Hs by done.
    destruct (Hrec alpha beta x y Hv) as [v Hr]. rewrite Hr in Hs. simpl in Hs.
    rewrite speculative_undo in Hs by done.
    pose proof (HP _ _ _ _ _ _ Hv Hr) as Pv.
    assert (Hmax : smax max_score (Num v) = max_score \/ P (smax max_score (Num v))).
    { unfold smax. destruct (slt max_score (Num v)); [by right | by left]. }
    destruct (sle beta (smax alpha (Num v))).
    + injection Hs as <- <-. done.
    + destruct (IH Hval _ _ _ _ _ Hs) as [-> | Ps]; [done | by right].
Qed.

Lemma min_loop_result ai rec (P : score -> Prop) b moves :
  wf_board b ->
  Forall (fun m : move => is_valid_move b m.1 m.2 = true) moves ->
  (forall alpha beta x y s b',
     is_valid_move b x y = true ->
     rec alpha beta (set_cell b x y (AI.opponent ai)) = Some (s, b') -> P s) ->
  rec_returns rec b (AI.opponent ai) ->
  forall min_score alpha beta s b',
    min_loop ai rec moves min_score alpha beta b = Some (s, b') ->
    s = min_score \/ P s.
Proof.
  intros Hwf Hval HP Hrec. induction moves as [| [x y] rest IH];
    intros min_score alpha beta s b' Hs; simpl in Hs.
  - injection Hs as <- <-. by left.
  - apply Forall_cons in Hval as [Hv Hval]. simpl in Hv.
    rewrite speculative_place in Hs by done.
    destruct (Hrec alpha beta x y Hv) as [v Hr]. rewrite Hr in Hs. simpl in Hs.
    rewrite speculative_undo in Hs by done.
    pose proof (HP _ _ _ _ _ _ Hv Hr) as Pv.
    assert (Hmin : smin min_score (Num v) = min_score \/ P (smin min_score (Num v))).
    { unfold smin. destruct (slt (Num v) min_score); [by right | by left]. }
    destruct (sle (smin beta (Num v)) alpha).
    + injection Hs as <- <-. done.
    + destruct (IH Hval _ _ _ _ _ Hs) as [-> | Ps]; [done | by right].
Qed.

Lemma minimax_score_bound ai depth :
  forall is_maximizing alpha beta b,
    wf_board b ->
    exists v, minimax ai depth is_maximizing alpha beta b = Some (Num v, b) /\
      Z.abs v <= 400000 * (size b * size b).
Proof.
  induction depth as [| depth IH]; intros is_maximizing alpha beta b Hwf.
  - destruct (evaluate_board_abs ai b) as (v & Hv & Hb). exists v.
    simpl. rewrite Hv. split; [done |]. destruct Hwf as [Hs _]. 
    by rewrite Z.max_r in Hb.
  - destruct (minimax_returns ai (S depth) is_maximizing alpha beta b Hwf) as [v Hv].
    exists v. split; [done |]. simpl in Hv.
    destruct (is_game_over b) as [[|] |]; [| | done]; simpl in Hv.
    + destruct (evaluate_board_abs ai b) as (v' & Hv' & Hb).
      rewrite Hv' in Hv. injection Hv as <-. destruct Hwf as [Hs _].
      by rewrite Z.max_r in Hb.
    + set (P := fun s : score => exists w, s = Num w /\ Z.abs w <= 400000 * (size b * size b)).
      assert (HP : forall im p a c x y s b',
                is_valid_move b x y = true ->
                minimax ai depth im a c (set_cell b x y p) = Some (s, b') -> P s).
      { intros im p a c x y s b' Hval Hs.
        destruct (IH im a c (set_cell b x y p)) as (w & Hw & Hb); [by apply wf_set_cell |].
        rewrite Hw in Hs. injection Hs as <- <-. by exists w. }
      assert (Hret : forall im p, rec_returns (minimax ai depth im) b p).
      { intros im p a c x y Hval. apply minimax_returns. by apply wf_set_cell. }
      destruct is_maximizing.
      * destruct (max_loop_result ai _ P b _ Hwf (get_valid_moves_valid b)
                    (HP false (AI.player ai)) (Hret false (AI.player ai))
                    _ _ _ _ _ Hv) as [E | (w & E & Hb)]; [done |].
        by injection E as ->.
      * destruct (min_loop_result ai _ P b _ Hwf (get_valid_moves_valid b)
                    (HP true (AI.opponent ai)) (Hret true (AI.opponent ai))
                    _ _ _ _ _ Hv) as [E | (w & E & Hb)]; [done |].
        by injection E as ->.
Qed.

(** X13.  A minimax score is the evaluation of a board of the same
    size, so it obeys the same bound, at every depth, for either side
    and with every window. *)
Theorem minimax_bounded (ai : AI.t) (depth : nat) (is_maximizing : bool)
    (alpha beta : score) (b : Board) :
  wf_board b ->
  exists v, minimax ai depth is_maximizing alpha beta b = Some (Num v, b) /\
    Z.abs v <= 400000 * (size b * size b).
Proof. apply minimax_score_bound. Qed.

Lemma minimax_bounded_witness :
  wf_board board_centre /\
  exists v, minimax (AI_init 2 "Hard") 2 false NegInf PosInf board_centre
            = Some (Num v, board_centre) /\
    Z.abs v <= 400000 * (size board_centre * size board_centre).
Proof.
  assert (Hwf : wf_board board_centre).
  { split; [vm_compute; discriminate | split; [reflexivity | repeat constructor]]. }
  split; [exact Hwf |].
  apply (minimax_bounded (AI_init 2 "Hard") 2 false NegInf PosInf board_centre Hwf).
Defined.

(** ** The first move on an empty board *)

Lemma set_cell_same b x y :
  wf_board b -> in_range b x y = true -> set_cell b x y (cell b x y) = b.
Proof.
  intros Hwf Hin. destruct (wf_lookup b x y Hwf Hin) as (row & Hrow & Hc).
  destruct b as [n g]. unfold set_cell; simpl in *. f_equal.
  apply list_eq. intros i. destruct (decide (i = Z.to_nat y)) as [-> | Hi].
  - rewrite list_lookup_alter_eq, Hrow; simpl. f_equal. by apply list_insert_id.
  - by rewrite list_lookup_alter_ne.
Qed.

(** X14.  [place_stone] does not look at the value it places: placing
    the Empty value 0 on a legal cell reports success and leaves the
    board, and the legality of that cell, as they were. *)
Theorem place_stone_empty_value (b : Board) (x y : Z) :
  wf_board b -> is_valid_move b x y = true ->
  place_stone b x y 0 = (true, b) /\
  is_valid_move (place_stone b x y 0).2 x y = true.
Proof.
  intros Hwf Hv. pose proof Hv as [Hin Hc]%is_valid_move_spec.
  assert (E : place_stone b x y 0 = (true, b)).
  { rewrite place_stone_valid by done. f_equal. rewrite <- Hc at 1.
    by apply set_cell_same. }
  by rewrite E.
Qed.

Lemma place_stone_empty_value_witness :
  wf_board board_four /\ is_valid_move board_four 4 7 = true /\
  place_stone board_four 4 7 0 = (true, board_four) /\
  is_valid_move (place_stone board_four 4 7 0).2 4 7 = true.
Proof.
  assert (Hwf : wf_board board_four).
  { split; [vm_compute; discriminate | split; [reflexivity | repeat constructor]]. }
  split; [exact Hwf |]. split; [reflexivity |].
  apply (place_stone_empty_value board_four 4 7 Hwf). reflexivity.
Defined.

(** The board with a single stone. *)
Lemma cell_single_stone n x y p x' y' :
  0 <= x < n -> 0 <= y < n -> 0 <= x' -> 0 <= y' ->
  cell (set_cell (Board_init n) x y p) x' y'
  = if decide ((x', y') = (x, y)) then p else 0.
Proof.
  intros Hx Hy Hx' Hy'. case_decide as E.
  - injection E as -> ->. apply cell_set_cell_eq; [apply wf_Board_init; lia |].
    apply in_range_spec. simpl. lia.
  - rewrite cell_set_cell_ne by (lia || done). apply cell_Board_init.
Qed.

Lemma line_score_single_stone n x y p dx dy :
  0 <= x < n -> 0 <= y < n -> p <> 0 -> (dx, dy) ∈ directions ->
  line_score (set_cell (Board_init n) x y p) x y p dx dy = 1.
Proof.
  intros Hx Hy Hp Hd. set (b := set_cell (Board_init n) x y p).
  destruct (directions_move dx dy Hd) as [H1 H2].
  assert (Hfree : forall sx sy, (sx <> 0 \/ sy <> 0) ->
            count_direction b x y sx sy p = Some 0 /\
            end_blocked b (x + 1 * sx) (y + 1 * sy) = 0).
  { intros sx sy Hs.
    assert (Hcell : in_range b (x + 1 * sx) (y + 1 * sy) = true ->
                    cell b (x + 1 * sx) (y + 1 * sy) = 0).
    { intros [Hjx Hjy]%in_range_spec. unfold b.
      rewrite cell_single_stone by lia. case_decide as E; [| done].
      injection E as Ex Ey. lia. }
    split.
    - destruct (count_direction_total b x y sx sy p Hs) as [f Hf]. rewrite Hf.
      f_equal. apply count_direction_spec in Hf as (Hf0 & Hall & _).
      destruct (decide (f = 0)) as [-> | Hne]; [done |].
      destruct (Hall 1 ltac:(lia)) as [Hin Hc]. rewrite Hcell in Hc by done. done.
    - unfold end_blocked. destruct (in_range b _ _) eqn:Hin; [| done].
      by rewrite Hcell. }
  destruct (Hfree dx dy H1) as [Hf Hfe]. destruct (Hfree (- dx) (- dy) H2) as [Hg Hge].
  unfold line_score. rewrite Hf, Hg.
  replace (x + (0 + 1) * dx) with (x + 1 * dx) by lia.
  replace (y + (0 + 1) * dy) with (y + 1 * dy) by lia.
  replace (x - (0 + 1) * dx) with (x + 1 * - dx) by lia.
  replace (y - (0 + 1) * dy) with (y + 1 * - dy) by lia.
  by rewrite Hfe, Hge.
Qed.

Lemma evaluate_position_single_stone n x y p :
  0 <= x < n -> 0 <= y < n -> p <> 0 ->
  evaluate_position (set_cell (Board_init n) x y p) x y p = Some 4.
Proof.
  intros Hx Hy Hp. unfold evaluate_position.
  rewrite evaluate_position_loop_lines by done. simpl.
  rewrite !line_score_single_stone by (done || (apply list_elem_of_In; simpl; tauto)).
  done.
Qed.

Lemma evaluate_board_loop_single_stone ai n x y cs :
  0 <= x < n -> 0 <= y < n -> AI.player ai <> 0 ->
  NoDup cs -> Forall (fun m : Z * Z => 0 <= m.1 /\ 0 <= m.2) cs ->
  forall acc,
    evaluate_board_loop ai (set_cell (Board_init n) x y (AI.player ai)) cs acc
    = Some (acc + if decide ((x, y) ∈ cs) then 4 else 0).
Proof.
  intros Hx Hy Hp. induction 1 as [| [x' y'] cs Hnin Hnd IH]; intros Hpos acc.
  - cbn [evaluate_board_loop]. case_decide as Hin; [by apply elem_of_nil in Hin |].
    f_equal. lia.
  - apply Forall_cons in Hpos as [[Hx' Hy'] Hpos]. simpl in Hx', Hy'.
    cbn [evaluate_board_loop]. rewrite cell_single_stone by lia.
    destruct (decide ((x', y') = (x, y))) as [E | E].
    + injection E as -> ->.
      destruct (Z.eqb_spec (AI.player ai) 0) as [? | _]; [done |].
      cbn [negb]. rewrite evaluate_position_single_stone by done.
      cbn [mbind option_bind]. rewrite Z.eqb_refl, IH by done.
      rewrite (decide_False (P := (x, y) ∈ cs)) by done.
      rewrite decide_True by left. f_equal. lia.
    + rewrite Z.eqb_refl. cbn [negb]. rewrite IH by done. f_equal.
      destruct (decide ((x, y) ∈ cs)) as [Hin | Hin].
      * by rewrite decide_True by (by right).
      * rewrite decide_False; [done |]. intros [E' | ?]%elem_of_cons; [| done].
        by destruct E.
Qed.

Lemma cells_NoDup b : NoDup (cells b).
Proof.
  unfold cells. apply NoDup_bind.
  - intros y1 y2 m _ _ Hm1 Hm2.
    apply list_elem_of_bind in Hm1 as (x1 & ->%list_elem_of_singleton & _).
    apply list_elem_of_bind in Hm2 as (x2 & [= _ ->]%list_elem_of_singleton & _). done.
  - intros y _. apply NoDup_bind.
    + intros x1 x2 m _ _ ->%list_elem_of_singleton [= ->]%list_elem_of_singleton. done.
    + intros x _. apply NoDup_singleton.
    + apply NoDup_seqZ.
  - apply NoDup_seqZ.
Qed.

(** After the first stone of the engine on an empty board, wherever
    it is, the evaluation is 4. *)
Lemma evaluate_board_single_stone ai n x y :
  0 <= x < n -> 0 <= y < n -> AI.player ai <> 0 ->
  evaluate_board ai (set_cell (Board_init n) x y (AI.player ai)) = Some 4.
Proof.
  intros Hx Hy Hp. unfold evaluate_board.
  rewrite evaluate_board_loop_single_stone; try done.
  - rewrite decide_True; [done |]. apply elem_of_cells, in_range_spec. simpl. lia.
  - apply cells_NoDup.
  - apply Forall_forall. intros [x' y'] [Hx' Hy']%elem_of_cells%in_range_spec.
    simpl. lia.
Qed.

Lemma cells_head b :
  0 < size b -> exists rest, cells b = (0, 0) :: rest.
Proof.
  intros Hs. unfold cells, range. rewrite seqZ_cons by lia.
  rewrite bind_cons. cbv beta. rewrite bind_cons. simpl. by eexists.
Qed.

Lemma move_score_first_stone ai n x y :
  0 <= x < n -> 0 <= y < n -> AI.player ai <> 0 ->
  move_score ai 0 (Board_init n) (x, y) = Num 4.
Proof.
  intros Hx Hy Hp. unfold move_score. simpl.
  rewrite place_stone_valid.
  - simpl. by rewrite evaluate_board_single_stone.
  - apply is_valid_move_spec. split; [apply in_range_spec; simpl; lia |].
    apply cell_Board_init.
Qed.

(** X15.  On an empty board of any size the Normal tier scores every
    first move alike, 4, and so returns the first cell in row-major
    order, the corner [(0, 0)]. *)
Theorem normal_tier_first_move (ai : AI.t) (n : Z) (rnd : nat) :
  1 <= n -> AI.difficulty ai = "Normal" -> AI.player ai <> 0 ->
  (forall x y, 0 <= x < n -> 0 <= y < n ->
     move_score ai 0 (Board_init n) (x, y) = Num 4) /\
  get_best_move ai (Board_init n) rnd = Some (Some (0, 0), Board_init n).
Proof.
  intros Hn Hd Hp. split; [intros x y Hx Hy; by apply move_score_first_stone |].
  set (b := Board_init n).
  assert (Hwf : wf_board b) by (apply wf_Board_init; lia).
  assert (Hmoves : get_valid_moves b = cells b).
  { apply get_valid_moves_all_empty. intros. apply cell_Board_init. }
  destruct (cells_head b) as [rest Hrest]; [simpl; lia |].
  assert (Hne : get_valid_moves b <> []) by (by rewrite Hmoves, Hrest).
  rewrite get_best_move_minimax by (done || by rewrite Hd).
  rewrite Hd. change (tier_depth "Normal") with 1%nat.
  destruct (minimax_move_spec ai 0 b Hwf Hne) as (m & -> & l1 & l2 & Hl & Hlt & _).
  do 3 f_equal. destruct l1 as [| [x1 y1] l1].
  - rewrite Hmoves, Hrest in Hl. simpl in Hl. by injection Hl as <- _.
  - exfalso. apply Forall_cons in Hlt as [Hlt _].
    assert (Hin1 : (x1, y1) ∈ get_valid_moves b) by (rewrite Hl; left).
    assert (Hinm : m ∈ get_valid_moves b).
    { rewrite Hl. apply elem_of_app. right. left. }
    destruct m as [xm ym].
    apply elem_of_get_valid_moves, is_valid_move_spec in Hin1 as [[? ?]%in_range_spec _].
    apply elem_of_get_valid_moves, is_valid_move_spec in Hinm as [[? ?]%in_range_spec _].
    unfold b in Hlt. rewrite !move_score_first_stone in Hlt by (simpl in *; lia || done).
    simpl in Hlt. by rewrite Z.ltb_irrefl in Hlt.
Qed.

Lemma normal_tier_first_move_witness :
  1 <= 15 /\ AI.difficulty (AI_init 2 "Normal") = "Normal" /\
  AI.player (AI_init 2 "Normal") <> 0 /\
  (forall x y, 0 <= x < 15 -> 0 <= y < 15 ->
     move_score (AI_init 2 "Normal") 0 (Board_init 15) (x, y) = Num 4) /\
  get_best_move (AI_init 2 "Normal") (Board_init 15) 0
  = Some (Some (0, 0), Board_init 15).
Proof.
  split; [lia |]. split; [reflexivity |]. split; [simpl; lia |].
  apply (normal_tier_first_move (AI_init 2 "Normal") 15 0); [lia | reflexivity | simpl; lia].
Defined.

(** ** The rules of play in game.py *)

(** A stone placed on a board without a five: [check_win] at the stone
    tells whether the new board has a five. *)
Lemma place_check b x y p :
  wf_board b -> is_valid_move b x y = true -> p <> 0 -> ~ has_five b ->
  exists w, check_win (set_cell b x y p) x y p = Some w /\
    (w = true <-> has_five (set_cell b x y p)).
Proof.
  intros Hwf Hv Hp Hno. pose proof Hv as [Hin Hc]%is_valid_move_spec.
  assert (Hcell : cell (set_cell b x y p) x y = p) by (by apply cell_set_cell_eq).
  destruct (check_win_total (set_cell b x y p) x y p) as [w Hw]. exists w.
  split; [done |].
  pose proof (check_win_has_five (set_cell b x y p) x y) as Hiff.
  rewrite Hcell in Hiff. specialize (Hiff Hin Hp). rewrite Hw in Hiff.
  assert (Hw' : w = true <-> Some w = Some true) by (split; congruence).
  rewrite Hw', Hiff. split.
  - intros (dx & dy & Hd & H5). exists x, y, dx, dy. by rewrite Hcell.
  - intros H5. by destruct (has_five_after_place b x y p Hwf Hv Hp H5).
Qed.

Lemma has_five_Board_init n : ~ has_five (Board_init n).
Proof. intros (x & y & dx & dy & _ & Hc & _). by rewrite cell_Board_init in Hc. Qed.

Lemma game_eta (g : Game.t) :
  Game.mk (Game.board g) (Game.game_mode g) (Game.ai_difficulty g) (Game.ai_player g)
    (Game.ai g) (Game.game_over g) (Game.winner g) (Game.current_player g) = g.
Proof. by destruct g. Qed.

(** What [make_ai_move] does to a game that is not over. *)
Lemma make_ai_move_spec g rnd :
  game_inv g -> Game.game_over g = false ->
  exists g', make_ai_move g rnd = Some g' /\ game_inv g' /\
    Game.game_mode g' = Game.game_mode g /\
    Game.ai_difficulty g' = Game.ai_difficulty g /\
    Game.ai_player g' = Game.ai_player g /\ Game.ai g' = Game.ai g /\
    ((get_valid_moves (Game.board g) = [] /\ g' = g) \/
     (exists x y, is_valid_move (Game.board g) x y = true /\
        Game.board g' = set_cell (Game.board g) x y (Game.current_player g) /\
        ((check_win (Game.board g') x y (Game.current_player g) = Some true /\
          Game.game_over g' = true /\ Game.winner g' = Some (Game.current_player g) /\
          Game.current_player g' = Game.current_player g) \/
         (check_win (Game.board g') x y (Game.current_player g) = Some false /\
          Game.game_over g' = false /\ Game.winner g' = Game.winner g /\
          Game.current_player g' = 3 - Game.current_player g)))).
Proof.
  intros (Hwf & Hp & Hfive & Hwin) Hover. unfold make_ai_move.
  assert (Hno : ~ has_five (Game.board g)).
  { intros H5. apply Hfive in H5. congruence. }
  destruct (decide (get_valid_moves (Game.board g) = [])) as [Hnil | Hne].
  - rewrite get_best_move_none by done. simpl. rewrite game_eta.
    exists g. split; [done |]. split; [done |]. repeat (split; [done |]). by left.
  - destruct (get_best_move_some (Game.ai g) (Game.board g) rnd Hwf Hne)
      as ([x y] & -> & Hm). simpl.
    apply elem_of_get_valid_moves in Hm.
    rewrite place_stone_valid by done.
    assert (Hp0 : Game.current_player g <> 0) by lia.
    destruct (place_check _ x y _ Hwf Hm Hp0 Hno) as (w & Hcw & Hw). rewrite Hcw. simpl.
    destruct w; eexists; (split; [done |]); simpl.
    + split.
      { split; [by apply wf_set_cell |]. split; [done |]. simpl.
        split; [split; [intros _; by apply Hw | done] | done]. }
      repeat (split; [done |]). right. exists x, y. split; [done |].
      split; [done |]. by left.
    + split.
      { split; [by apply wf_set_cell |]. split; [simpl; lia |]. simpl.
        rewrite Hover. split; [| by rewrite <- Hwin, Hover].
        split; [done |]. intros H5. apply Hw in H5. done. }
      repeat (split; [done |]). right. exists x, y. split; [done |].
      split; [done |]. right. by rewrite Hover.
Qed.

(** What a click on the board does. *)
Lemma board_click_spec g pos rnd :
  game_inv g ->
  exists g', board_click g pos rnd = Some g' /\ game_inv g' /\
    ((forall x y, pos = Some (x, y) -> Game.game_over g = false ->
        is_valid_move (Game.board g) x y = false) -> g' = g).
Proof.
  intros Hinv. pose proof Hinv as (Hwf & Hp & Hfive & Hwin). unfold board_click.
  destruct pos as [[x y] |]; [| by exists g].
  destruct (Game.game_over g) eqn:Hover; simpl.
  { exists g. split; [done |]. split; [done |]. done. }
  destruct (is_valid_move (Game.board g) x y) eqn:Hv; [| by exists g].
  assert (Hno : ~ has_five (Game.board g)).
  { intros H5. apply Hfive in H5. congruence. }
  rewrite place_stone_valid by done.
  assert (Hp0 : Game.current_player g <> 0) by lia.
  destruct (place_check _ x y _ Hwf Hv Hp0 Hno) as (w & -> & Hw). simpl.
  assert (Hcontra : forall G : Prop,
            (forall x0 y0, Some (x, y) = Some (x0, y0) -> false = false ->
               is_valid_move (Game.board g) x0 y0 = false) -> G).
  { intros G H. specialize (H x y eq_refl eq_refl). congruence. }
  destruct w.
  - eexists. split; [done |]. split; [| apply Hcontra].
    split; [by apply wf_set_cell |]. split; [done |]. simpl.
    split; [split; [intros _; by apply Hw | done] | done].
  - set (g1 := Game.mk (set_cell (Game.board g) x y (Game.current_player g))
                 (Game.game_mode g) (Game.ai_difficulty g) (Game.ai_player g)
                 (Game.ai g) false (Game.winner g) (3 - Game.current_player g)).
    assert (Hinv1 : game_inv g1).
    { split; [by apply wf_set_cell |]. split; [simpl; lia |]. simpl.
      split; (split; [done |]).
      - intros H5. apply Hw in H5. done.
      - intros H. apply Hwin in H. congruence. }
    destruct (_ && _).
    + destruct (make_ai_move_spec g1 rnd Hinv1 eq_refl) as (g' & Hg' & Hinv' & _).
      exists g'. split; [done |]. split; [done | apply Hcontra].
    + exists g1. split; [done |]. split; [done | apply Hcontra].
Qed.

Lemma game_inv_Game_init : game_inv Game_init.
Proof.
  split; [by apply wf_Board_init |]. split; [by left |]. simpl. split.
  - split; [done |]. intros H. by apply has_five_Board_init in H.
  - split; [done |]. intros H. by destruct H.
Qed.

Lemma game_inv_reset_game g : game_inv (reset_game g).
Proof.
  split; [by apply wf_Board_init |]. split; [by left |]. simpl. split.
  - split; [done |]. intros H. by apply has_five_Board_init in H.
  - split; [done |]. intros H. by destruct H.
Qed.

Lemma game_inv_set_mode g mode difficulty :
  game_inv g -> game_inv (set_mode g mode difficulty).
Proof. intros Hinv. unfold set_mode. by case_bool_decide. Qed.

(** X16.  The game is flagged over exactly when five in a row stand on
    the board, it has a winner exactly when it is over, and black or
    white is to move: this holds of the initial game and of a game after
    [reset_game], and [set_mode], a click on the board and
    [make_ai_move] keep it.  A full board without a five is therefore
    never flagged: the game has no draw. *)
Theorem game_inv_kept (g : Game.t) :
  game_inv g ->
  game_inv Game_init /\ game_inv (reset_game g) /\
  (forall mode difficulty, game_inv (set_mode g mode difficulty)) /\
  (forall pos rnd, exists g', board_click g pos rnd = Some g' /\ game_inv g') /\
  (Game.game_over g = false ->
     forall rnd, exists g', make_ai_move g rnd = Some g' /\ game_inv g').
Proof.
  intros Hinv. split; [apply game_inv_Game_init |].
  split; [apply game_inv_reset_game |].
  split; [intros; by apply game_inv_set_mode |]. split.
  - intros pos rnd. destruct (board_click_spec g pos rnd Hinv) as (g' & H1 & H2 & _).
    by exists g'.
  - intros Hover rnd.
    destruct (make_ai_move_spec g rnd Hinv Hover) as (g' & H1 & H2 & _). by exists g'.
Qed.

Lemma game_inv_kept_witness :
  game_inv Game_init /\
  game_inv Game_init /\ game_inv (reset_game Game_init) /\
  (forall mode difficulty, game_inv (set_mode Game_init mode difficulty)) /\
  (forall pos rnd, exists g', board_click Game_init pos rnd = Some g' /\ game_inv g') /\
  (Game.game_over Game_init = false ->
     forall rnd, exists g', make_ai_move Game_init rnd = Some g' /\ game_inv g').
Proof.
  assert (Hinv : game_inv Game_init).
  { split; [split; [vm_compute; discriminate | split; [reflexivity | repeat constructor]] |].
    split; [by left |]. simpl. split.
    - split; [done |]. intros (x & y & dx & dy & _ & Hc & _).
      by rewrite cell_Board_init in Hc.
    - split; [done |]. intros H. by destruct H. }
  split; [exact Hinv |]. apply (game_inv_kept Game_init Hinv).
Defined.

(** X17.  [make_ai_move] on a game that is not over: with no legal
    move the game is unchanged; otherwise one stone of the player to
    move is put on a legal cell, and either that stone wins ([check_win]
    holds, the game is over and that player is the winner) or the turn
    passes to [3 - current_player].  Mode, difficulty and engine are
    untouched. *)
Theorem make_ai_move_step (g : Game.t) (rnd : nat) :
  game_inv g -> Game.game_over g = false ->
  exists g', make_ai_move g rnd = Some g' /\
    Game.game_mode g' = Game.game_mode g /\
    Game.ai_difficulty g' = Game.ai_difficulty g /\
    Game.ai_player g' = Game.ai_player g /\ Game.ai g' = Game.ai g /\
    ((get_valid_moves (Game.board g) = [] /\ g' = g) \/
     (exists x y, is_valid_move (Game.board g) x y = true /\
        Game.board g' = set_cell (Game.board g) x y (Game.current_player g) /\
        ((check_win (Game.board g') x y (Game.current_player g) = Some true /\
          Game.game_over g' = true /\ Game.winner g' = Some (Game.current_player g) /\
          Game.current_player g' = Game.current_player g) \/
         (check_win (Game.board g') x y (Game.current_player g) = Some false /\
          Game.game_over g' = false /\ Game.winner g' = Game.winner g /\
          Game.current_player g' = 3 - Game.current_player g)))).
Proof.
  intros Hinv Hover.
  destruct (make_ai_move_spec g rnd Hinv Hover) as (g' & H1 & _ & H2). by exists g'.
Qed.

Lemma make_ai_move_step_witness :
  game_inv (Game.mk board_four "AI Mode" "Easy" (Some 2) (AI_init 1 "Easy") false None 2) /\
  exists g', make_ai_move
               (Game.mk board_four "AI Mode" "Easy" (Some 2) (AI_init 1 "Easy") false None 2)
               0 = Some g' /\
    Game.game_mode g' = "AI Mode" /\ Game.ai_difficulty g' = "Easy" /\
    Game.ai_player g' = Some 2 /\ Game.ai g' = AI_init 1 "Easy" /\
    ((get_valid_moves board_four = [] /\
      g' = Game.mk board_four "AI Mode" "Easy" (Some 2) (AI_init 1 "Easy") false None 2) \/
     (exists x y, is_valid_move board_four x y = true /\
        Game.board g' = set_cell board_four x y 2 /\
        ((check_win (Game.board g') x y 2 = Some true /\
          Game.game_over g' = true /\ Game.winner g' = Some 2 /\
          Game.current_player g' = 2) \/
         (check_win (Game.board g') x y 2 = Some false /\
          Game.game_over g' = false /\ Game.winner g' = None /\
          Game.current_player g' = 3 - 2)))).
Proof.
  set (g := Game.mk board_four "AI Mode" "Easy" (Some 2) (AI_init 1 "Easy") false None 2).
  assert (Hinv : game_inv g).
  { split; [split; [vm_compute; discriminate | split; [reflexivity | repeat constructor]] |].
    split; [by right |]. simpl. split.
    - split; [done |]. intros H5.
      assert (Hover : is_game_over board_four = Some false) by (vm_compute; reflexivity).
      destruct (is_game_over_spec board_four) as (r & Hr & Hiff).
      rewrite Hover in Hr. injection Hr as <-. apply Hiff. by right.
    - split; [done |]. intros H. by destruct H. }
  split; [exact Hinv |]. apply (make_ai_move_step g 0 Hinv). reflexivity.
Defined.

(** X18.  A legal click of black against the engine playing white:
    black's stone is on the board afterwards, and either black has won,
    or the board is full and white stays to move with the game not
    flagged over, or the engine has answered with one white stone on an
    Empty cell and has won or has handed the turn back to black. *)
Theorem ai_mode_click (g : Game.t) (x y : Z) (rnd : nat) :
  game_inv g -> Game.game_mode g = "AI Mode" -> Game.ai_player g = Some 2 ->
  Game.current_player g = 1 -> Game.game_over g = false ->
  is_valid_move (Game.board g) x y = true ->
  exists g', board_click g (Some (x, y)) rnd = Some g' /\
    cell (Game.board g') x y = 1 /\
    ((Game.game_over g' = true /\ Game.winner g' = Some 1 /\
      Game.board g' = set_cell (Game.board g) x y 1) \/
     (Game.game_over g' = false /\ get_valid_moves (Game.board g') = [] /\
      Game.current_player g' = 2 /\
      Game.board g' = set_cell (Game.board g) x y 1) \/
     (exists x' y', is_valid_move (set_cell (Game.board g) x y 1) x' y' = true /\
        Game.board g' = set_cell (set_cell (Game.board g) x y 1) x' y' 2 /\
        ((Game.game_over g' = true /\ Game.winner g' = Some 2) \/
         (Game.game_over g' = false /\ Game.current_player g' = 1)))).
Proof.
  intros Hinv Hmode Hai Hcp Hover Hv.
  pose proof Hinv as (Hwf & Hp & Hfive & Hwin).
  pose proof Hv as [Hin Hc]%is_valid_move_spec.
  assert (Hno : ~ has_five (Game.board g)).
  { intros H5. apply Hfive in H5. congruence. }
  assert (Hcell : cell (set_cell (Game.board g) x y 1) x y = 1)
    by (by apply cell_set_cell_eq).
  unfold board_click. rewrite Hover, Hv. simpl.
  rewrite place_stone_valid by done. rewrite Hcp.
  destruct (place_check _ x y 1 Hwf Hv ltac:(lia) Hno) as (w & -> & Hw). simpl.
  destruct w.
  - eexists. split; [done |]. simpl. split; [done |]. by left.
  - rewrite Hmode, Hai. simpl.
    set (g1 := Game.mk (set_cell (Game.board g) x y 1) "AI Mode"
                 (Game.ai_difficulty g) (Some 2) (Game.ai g) false
                 (Game.winner g) 2).
    assert (Hinv1 : game_inv g1).
    { split; [by apply wf_set_cell |]. split; [by right |]. simpl.
      split; (split; [done |]).
      - intros H5. apply Hw in H5. done.
      - intros H. apply Hwin in H. congruence. }
    change (bool_decide (Some 2 = Some (3 - 1))) with true. simpl.
    replace (3 - 1) with 2 by lia. fold g1.
    destruct (make_ai_move_spec g1 rnd Hinv1 eq_refl)
      as (g' & -> & _ & _ & _ & _ & _ & Hcase).
    exists g'. split; [done |].
    destruct Hcase as [[Hnil ->] | (x' & y' & Hv' & Hb' & Hres)]; simpl in *.
    + split; [done |]. right. left. done.
    + assert (Hne : (x, y) <> (x', y')).
      { intros [= <- <-]. apply is_valid_move_spec in Hv' as [_ Hc'].
        rewrite Hcell in Hc'. done. }
      pose proof Hin as [Hx Hy]%in_range_spec.
      pose proof Hv' as [[Hx' Hy']%in_range_spec _]%is_valid_move_spec.
      simpl in Hx', Hy'.
      split.
      { rewrite Hb'. rewrite cell_set_cell_ne by (lia || done). done. }
      right. right. exists x', y'. split; [done |]. split; [done |].
      destruct Hres as [(_ & H1 & H2 & _) | (_ & H1 & _ & H2)]; [by left |].
      right. split; [done |]. rewrite H2. lia.
Qed.

Lemma ai_mode_click_witness :
  game_inv (set_mode Game_init "AI Mode" (Some "Normal")) /\
  exists g', board_click (set_mode Game_init "AI Mode" (Some "Normal")) (Some (7, 7)) 0
             = Some g' /\
    cell (Game.board g') 7 7 = 1 /\
    ((Game.game_over g' = true /\ Game.winner g' = Some 1 /\
      Game.board g' = set_cell (Board_init 15) 7 7 1) \/
     (Game.game_over g' = false /\ get_valid_moves (Game.board g') = [] /\
      Game.current_player g' = 2 /\
      Game.board g' = set_cell (Board_init 15) 7 7 1) \/
     (exists x' y', is_valid_move (set_cell (Board_init 15) 7 7 1) x' y' = true /\
        Game.board g' = set_cell (set_cell (Board_init 15) 7 7 1) x' y' 2 /\
        ((Game.game_over g' = true /\ Game.winner g' = Some 2) \/
         (Game.game_over g' = false /\ Game.current_player g' = 1)))).
Proof.
  set (g := set_mode Game_init "AI Mode" (Some "Normal")).
  assert (Hinv : game_inv g).
  { split; [split; [vm_compute; discriminate | split; [reflexivity | repeat constructor]] |].
    split; [by left |]. simpl. split.
    - split; [done |]. intros (x & y & dx & dy & _ & Hc & _).
      by rewrite cell_Board_init in Hc.
    - split; [done |]. intros H. by destruct H. }
  split; [exact Hinv |].
  apply (ai_mode_click g 7 7 0 Hinv); reflexivity.
Defined.
